(** * order_includes: a shallow embedding of [main.cpp] and its properties

    The program reads a Go source file line by line, locates the grouped
    [import ( ... )] block, replaces blank lines of the block by a reserved
    marker, sorts the block with [std::sort] under the comparator [cmp], and
    writes the file back, dropping marked lines and separating the groups of
    imports by one empty line.

    Conventions of the embedding:
    - [std::string] is [string] (a sequence of 8-bit characters);
    - [std::vector<std::string>] is [list string]; iterators into the vector
      are [nat] indices, [lines.end()] being [length lines];
    - [std::string::find] returns [option nat], [None] standing for [npos];
    - a file on disk is its byte content, a [string]; an output stream is the
      list of records written so far, each of them ended by [std::endl];
    - [std::sort] is not part of the program: it is a parameter of the
      development, constrained by the contract the C++ standard gives it. *)

From Stdlib Require Import String Ascii.
From stdpp Require Import base list strings sorting gmap.

Open Scope string_scope.
Open Scope list_scope.

(** ** Characters and strings *)

(** [std::isspace] in the "C" locale, which the program never changes: the
    space (32) and the control characters from the tabulation (9) to the
    carriage return (13). No byte above 127 is white space. *)
Definition isspace (ch : ascii) : bool :=
  let n := nat_of_ascii ch in
  (n =? 32)%nat || ((9 <=? n)%nat && (n <=? 13)%nat).

(** [std::all_of(str.begin(), str.end(), isspace)] *)
Fixpoint all_of_isspace (str : string) : bool :=
  match str with
  | EmptyString => true
  | String ch rest => isspace ch && all_of_isspace rest
  end.

(** [str.empty()] *)
Definition empty (str : string) : bool :=
  match str with
  | EmptyString => true
  | String _ _ => false
  end.

(** [str.find(pat)]: the position of the first occurrence of [pat] in [str],
    [None] for [std::string::npos]. *)
Fixpoint find (pat str : string) : option nat :=
  if String.prefix pat str then Some 0
  else match str with
       | EmptyString => None
       | String _ rest => option_map S (find pat rest)
       end.

(** [std::string(str.begin(), str.begin() + n)] *)
Fixpoint string_take (n : nat) (str : string) : string :=
  match n, str with
  | S k, String ch rest => String ch (string_take k rest)
  | _, _ => EmptyString
  end.

(** [std::string(str.begin() + n, str.end())] *)
Fixpoint string_drop (n : nat) (str : string) : string :=
  match n, str with
  | S k, String _ rest => string_drop k rest
  | _, _ => str
  end.

Definition g_deleted_line : string := "${THIS_LINE_IS_DELETED}".

(** The quotation mark and the line feed, which a string literal cannot
    spell. *)
Definition dquote : ascii := ascii_of_nat 34.
Definition newline : ascii := ascii_of_nat 10.

(** [enum class ModuleType { StdLib, Platform, ThirdParty, None }] *)
Module ModuleType.
Inductive t := StdLib | Platform | ThirdParty | None.

(** The enumerators' values; [<] and [!=] on a scoped enumeration compare
    them. *)
Definition rank (m : t) : nat :=
  match m with
  | StdLib => 0
  | Platform => 1
  | ThirdParty => 2
  | None => 3
  end.

Definition neqb (a b : t) : bool := negb (rank a =? rank b)%nat.
Definition ltb (a b : t) : bool := (rank a <? rank b)%nat.
End ModuleType.

Fixpoint removeSpaces (str : string) : string :=
  match str with
  | EmptyString => EmptyString
  | String ch rest =>
      if isspace ch then removeSpaces rest else String ch (removeSpaces rest)
  end.

Definition removeComments (str : string) : string :=
  match find "//" str with
  | None => str
  | Some commentBegin => string_take commentBegin str
  end.

(** [str.find(pat) != std::string::npos] *)
Definition found (pat str : string) : bool :=
  match find pat str with
  | Some _ => true
  | None => false
  end.

Definition isThirdPartyModule (str : string) : bool :=
  found (String dquote "github.com/") str ||
  found (String dquote "gopkg.in/") str ||
  found (String dquote "golang.org/") str ||
  found (String dquote "pault.ag/") str.

Definition isPlatformModule (str : string) : bool :=
  found (String dquote "platform/") str.

Definition isStdLibModule (str : string) : bool :=
  if empty str then false
  else if all_of_isspace str then false
  else if String.eqb str g_deleted_line then false
  else if isThirdPartyModule str then false
  else if isPlatformModule str then false
  else if bool_decide (find "//" (removeSpaces str) = Some 0) then false
  else true.

Definition moduleType (str : string) : ModuleType.t :=
  if isThirdPartyModule str then ModuleType.ThirdParty
  else if isPlatformModule str then ModuleType.Platform
  else if isStdLibModule str then ModuleType.StdLib
  else ModuleType.None.

Definition removeUserModuleName (str : string) : string :=
  match find (String dquote EmptyString) str with
  | None => str
  | Some quoteBegin => string_drop quoteBegin str
  end.

(** The comparator handed to [std::sort]. [<] on [std::string] is the
    lexicographic order of the characters taken as unsigned bytes, which is
    [String.ltb]. *)
Definition cmp (lhs rhs : string) : bool :=
  if String.eqb lhs g_deleted_line && String.eqb rhs g_deleted_line then false
  else if String.eqb lhs g_deleted_line then false
  else if String.eqb rhs g_deleted_line then true
  else
    let lhsType := moduleType lhs in
    let rhsType := moduleType rhs in
    if ModuleType.neqb lhsType rhsType then ModuleType.ltb lhsType rhsType
    else
      let pureLhs := removeUserModuleName (removeSpaces lhs) in
      let pureRhs := removeUserModuleName (removeSpaces rhs) in
      String.ltb pureLhs pureRhs.

Definition withinIncludes (i begin end_ : nat) : bool :=
  (begin <=? i)%nat && (i <? end_)%nat.

(** ** Files and streams *)

(** The file system maps the paths that can be opened to the bytes of the
    file. *)
Abbreviation FileSystem := (gmap string string).

Record Result := { m_path : string; m_result_message : string }.

(** [std::getline(file, line)] on the unread bytes [file]: [None] when no
    character is left (the extraction fails), otherwise the characters up to
    the first line feed, which is consumed, or up to the end of the file,
    with the bytes left unread. *)
Fixpoint getline_chars (file : string) : string * string :=
  match file with
  | EmptyString => (EmptyString, EmptyString)
  | String ch rest =>
      if Ascii.eqb ch newline then (EmptyString, rest)
      else let '(line, unread) := getline_chars rest in (String ch line, unread)
  end.

Definition getline (file : string) : option (string * string) :=
  match file with
  | EmptyString => None
  | _ => Some (getline_chars file)
  end.

(** The loop of [readFile]; every round consumes at least one byte, so
    [fuel] above the length of the unread bytes is never exhausted. *)
Fixpoint readFile_loop (fuel : nat) (file : string) (result : list string)
  : list string :=
  match fuel with
  | O => result
  | S fuel' =>
      match getline file with
      | None => result
      | Some (line, unread) => readFile_loop fuel' unread (result ++ [line])
      end
  end.

(** A path that cannot be opened gives a stream on which every extraction
    fails. *)
Definition readFile (path : string) (fs : FileSystem) : list string :=
  match fs !! path with
  | None => []
  | Some file => readFile_loop (S (String.length file)) file []
  end.

(** The bytes of an output stream: every record followed by the line feed
    of [std::endl]. *)
Fixpoint stream_bytes (file : list string) : string :=
  match file with
  | [] => EmptyString
  | record :: rest => record +:+ String newline (stream_bytes rest)
  end.

(** ** The block locator *)

(** [lines[i]]; the program only reads inside the vector. *)
Definition line_at (lines : list string) (i : nat) : string :=
  default EmptyString (lines !! i).

(** First loop of [findIncludes]: [rest] is the part of the vector from the
    iterator [begin] on. *)
Fixpoint findIncludes_begin (rest : list string) (begin : nat) : nat :=
  match rest with
  | [] => begin
  | line :: rest' =>
      if String.eqb (removeComments (removeSpaces line)) "import(" then S begin
      else findIncludes_begin rest' (S begin)
  end.

(** Second loop of [findIncludes]. *)
Fixpoint findIncludes_end (rest : list string) (end_ : nat) : nat :=
  match rest with
  | [] => end_
  | line :: rest' =>
      if String.eqb (removeComments (removeSpaces line)) ")" then end_
      else findIncludes_end rest' (S end_)
  end.

Definition findIncludes (lines : list string) : nat * nat :=
  let begin := findIncludes_begin lines 0 in
  let end_ := findIncludes_end (drop begin lines) begin in
  (begin, end_).

(** ** The blank line normalizer *)

Definition deleteEmptyLines_step (begin : nat) (lines : list string)
  : list string :=
  if empty (line_at lines begin) then <[begin := g_deleted_line]> lines
  else if all_of_isspace (line_at lines begin)
       then <[begin := g_deleted_line]> lines
       else lines.

(** The loop of [deleteEmptyLines], [n] being the distance [end - begin]. *)
Fixpoint deleteEmptyLines_loop (n begin : nat) (lines : list string)
  : list string :=
  match n with
  | O => lines
  | S n' => deleteEmptyLines_loop n' (S begin) (deleteEmptyLines_step begin lines)
  end.

Definition deleteEmptyLines (begin end_ : nat) (lines : list string)
  : list string :=
  deleteEmptyLines_loop (end_ - begin) begin lines.

(** ** The renderer *)

(** One round of the loop of [writeWithoutDeletedLinesAndWithSeparatedGroups];
    [file] is the output stream. The operands of [&&] are evaluated from left
    to right, so [lines[i + 1]] is read only when [i] is not the last
    index. *)
Definition write_step (lines : list string) (includeBegin includeEnd i : nat)
  (file : list string) : list string :=
  let file :=
    if negb (String.eqb (line_at lines i) g_deleted_line)
    then file ++ [line_at lines i] else file in
  if negb (String.eqb (line_at lines i) g_deleted_line) &&
     negb (i =? length lines - 1)%nat &&
     negb (String.eqb (line_at lines (i + 1)) g_deleted_line) &&
     withinIncludes i includeBegin includeEnd &&
     withinIncludes (i + 1) includeBegin includeEnd
  then
    let moduleTypeCurrent := moduleType (line_at lines i) in
    let moduleTypeNext := moduleType (line_at lines (i + 1)) in
    if ModuleType.neqb moduleTypeCurrent ModuleType.None &&
       ModuleType.neqb moduleTypeNext ModuleType.None &&
       ModuleType.neqb moduleTypeCurrent moduleTypeNext
    then file ++ [EmptyString] else file
  else file.

(** [n] rounds of the loop from index [i] on. *)
Fixpoint write_loop (n : nat) (lines : list string)
  (includeBegin includeEnd i : nat) (file : list string) : list string :=
  match n with
  | O => file
  | S n' =>
      write_loop n' lines includeBegin includeEnd (S i)
        (write_step lines includeBegin includeEnd i file)
  end.

(** The records written to the stream. *)
Definition written_records (lines : list string) : list string :=
  let '(includeBegin, includeEnd) := findIncludes lines in
  write_loop (length lines) lines includeBegin includeEnd 0 [].

(** Opening the [std::ofstream] truncates the file; closing it leaves the
    records on disk. *)
Definition writeWithoutDeletedLinesAndWithSeparatedGroups (path : string)
  (lines : list string) (fs : FileSystem) : FileSystem :=
  <[path := stream_bytes (written_records lines)]> fs.

(** ** The driver *)

(** A sorting algorithm takes the comparator and the elements of the
    range. *)
Abbreviation sort_algorithm := ((string -> string -> bool) -> list string -> list string).

(** [std::sort(begin, end, comp)] on the vector: the elements of the range
    are replaced by their sorted arrangement. *)
Definition sort_range (std_sort : sort_algorithm) (begin end_ : nat)
  (comp : string -> string -> bool) (lines : list string) : list string :=
  take begin lines ++ std_sort comp (take (end_ - begin) (drop begin lines))
    ++ drop end_ lines.

Section Driver.
Variable std_sort : sort_algorithm.

(** The vector when [formatFile] hands it to the renderer. *)
Definition formatted_lines (lines : list string) : list string :=
  let '(begin, end_) := findIncludes lines in
  sort_range std_sort begin end_ cmp (deleteEmptyLines begin end_ lines).

Definition formatFile (path : string) (fs : FileSystem)
  : Result * FileSystem :=
  let lines := readFile path fs in
  if bool_decide (lines = []) then
    ({| m_path := path; m_result_message := "failed to read from file" |}, fs)
  else
    let '(begin, end_) := findIncludes lines in
    if (end_ <=? begin)%nat then
      ({| m_path := path; m_result_message := "no includes found" |}, fs)
    else
      let lines := deleteEmptyLines begin end_ lines in
      let lines := sort_range std_sort begin end_ cmp lines in
      ({| m_path := path; m_result_message := "done" |},
       writeWithoutDeletedLinesAndWithSeparatedGroups path lines fs).
End Driver.

(** ** Sorting *)

(** What [std::sort] requires of its comparator. *)
Record strict_weak_ordering (comp : string -> string -> bool) : Prop := {
  swo_irreflexive : forall x, comp x x = false;
  swo_transitive : forall x y z,
    comp x y = true -> comp y z = true -> comp x z = true;
  swo_equivalence_transitive : forall x y z,
    comp x y = false -> comp y x = false ->
    comp y z = false -> comp z y = false ->
    comp x z = false /\ comp z x = false
}.

(** A range is sorted with respect to [comp] when no element is less than
    an element before it. *)
Definition sorted_by (comp : string -> string -> bool) (l : list string)
  : Prop :=
  StronglySorted (fun x y => comp y x = false) l.

(** What the standard promises of [std::sort] when the comparator is a
    strict weak ordering: the range holds the same elements, sorted. The
    order of equivalent elements is not promised. *)
Record std_sort_contract (std_sort : sort_algorithm) : Prop := {
  std_sort_permutation : forall comp l,
    strict_weak_ordering comp -> std_sort comp l ≡ₚ l;
  std_sort_sorted : forall comp l,
    strict_weak_ordering comp -> sorted_by comp (std_sort comp l)
}.

(** Two sorting algorithms by insertion. [goes_before x y] decides whether
    the element [x] under insertion stops in front of [y]. *)
Fixpoint insert_by (goes_before : string -> string -> bool) (x : string)
  (l : list string) : list string :=
  match l with
  | [] => [x]
  | y :: l' =>
      if goes_before x y then x :: y :: l'
      else y :: insert_by goes_before x l'
  end.

(** Stable: an element stops in front of the first element that is not less
    than it, so equivalent elements keep their order. *)
Definition stable_sort : sort_algorithm :=
  fun comp l => foldr (insert_by (fun x y => negb (comp y x))) [] l.

(** Not stable: an element passes the elements equivalent to it, so
    equivalent elements come out in reverse order. *)
Definition reversing_sort : sort_algorithm :=
  fun comp l => foldr (insert_by (fun x y => comp x y)) [] l.

(** ** An implementation of [std::sort]

    The introsort of GNU libstdc++ ([bits/stl_algo.h], [bits/stl_heap.h]):
    quicksort on the median of three down to ranges of 16 elements, heap sort
    when the depth limit is used up, and a last pass of insertion sort. The
    vector is a list, the iterators are indices, the loops take as fuel a
    bound of their rounds. It is not part of the program; it shows the
    program at work with a library in wide use. *)
Module Libstdcxx.
Section Sort.
Variable comp : string -> string -> bool.


(** [std::iter_swap(a + i, a + j)] *)
Definition iter_swap (a : list string) (i j : nat) : list string :=
  <[i := line_at a j]> (<[j := line_at a i]> a).

(** The loop of [__unguarded_linear_insert]; what keeps it in the range is
    an element in front that is not above [val]. *)
Fixpoint unguarded_linear_insert_loop (n : nat) (a : list string)
  (val : string) (last : nat) : list string :=
  match n with
  | O => <[last := val]> a
  | S n' =>
      let next := last - 1 in
      if comp val (line_at a next)
      then unguarded_linear_insert_loop n' (<[last := line_at a next]> a) val next
      else <[last := val]> a
  end.

Definition unguarded_linear_insert (a : list string) (last : nat) : list string :=
  unguarded_linear_insert_loop (length a) a (line_at a last) last.

(** [val = *i; std::move_backward(first, i, i + 1); *first = val] *)
Definition move_to_first (a : list string) (first i : nat) : list string :=
  take first a ++ line_at a i :: take (i - first) (drop first a) ++ drop (S i) a.

Fixpoint insertion_sort_loop (n : nat) (a : list string) (first i : nat)
  : list string :=
  match n with
  | O => a
  | S n' =>
      insertion_sort_loop n'
        (if comp (line_at a i) (line_at a first) then move_to_first a first i
         else unguarded_linear_insert a i)
        first (S i)
  end.

Definition insertion_sort (a : list string) (first last : nat) : list string :=
  if (first =? last)%nat then a
  else insertion_sort_loop (last - (first + 1)) a first (first + 1).

Fixpoint unguarded_insertion_sort_loop (n : nat) (a : list string) (i : nat)
  : list string :=
  match n with
  | O => a
  | S n' => unguarded_insertion_sort_loop n' (unguarded_linear_insert a i) (S i)
  end.

Definition unguarded_insertion_sort (a : list string) (first last : nat) :=
  unguarded_insertion_sort_loop (last - first) a first.

(** [_S_threshold] *)
Definition S_threshold : nat := 16.

Definition final_insertion_sort (a : list string) (first last : nat) :=
  if (S_threshold <? last - first)%nat then
    unguarded_insertion_sort (insertion_sort a first (first + S_threshold))
      (first + S_threshold) last
  else insertion_sort a first last.

Definition move_median_to_first (a : list string) (result x y z : nat) :=
  if comp (line_at a x) (line_at a y) then
    if comp (line_at a y) (line_at a z) then iter_swap a result y
    else if comp (line_at a x) (line_at a z) then iter_swap a result z
    else iter_swap a result x
  else if comp (line_at a x) (line_at a z) then iter_swap a result x
  else if comp (line_at a y) (line_at a z) then iter_swap a result z
  else iter_swap a result y.

(** The two inner loops of [__unguarded_partition]. *)
Fixpoint scan_up (n : nat) (a : list string) (first pivot : nat) : nat :=
  match n with
  | O => first
  | S n' => if comp (line_at a first) (line_at a pivot)
            then scan_up n' a (S first) pivot else first
  end.

Fixpoint scan_down (n : nat) (a : list string) (last pivot : nat) : nat :=
  match n with
  | O => last
  | S n' => if comp (line_at a pivot) (line_at a last)
            then scan_down n' a (last - 1) pivot else last
  end.

Fixpoint unguarded_partition_loop (n : nat) (a : list string)
  (first last pivot : nat) : list string * nat :=
  match n with
  | O => (a, first)
  | S n' =>
      let first := scan_up (length a) a first pivot in
      let last := scan_down (length a) a (last - 1) pivot in
      if negb (first <? last)%nat then (a, first)
      else unguarded_partition_loop n' (iter_swap a first last) (S first) last pivot
  end.

Definition unguarded_partition (a : list string) (first last pivot : nat) :=
  unguarded_partition_loop (length a) a first last pivot.

Definition unguarded_partition_pivot (a : list string) (first last : nat) :=
  let mid := first + (last - first) / 2 in
  unguarded_partition
    (move_median_to_first a first (first + 1) mid (last - 1))
    (first + 1) last first.

Fixpoint push_heap_loop (n : nat) (a : list string) (first holeIndex topIndex : nat)
  (value : string) : list string :=
  match n with
  | O => <[first + holeIndex := value]> a
  | S n' =>
      let parent := (holeIndex - 1) / 2 in
      if (topIndex <? holeIndex)%nat && comp (line_at a (first + parent)) value
      then push_heap_loop n' (<[first + holeIndex := line_at a (first + parent)]> a)
             first parent topIndex value
      else <[first + holeIndex := value]> a
  end.

Definition push_heap a first holeIndex topIndex value :=
  push_heap_loop (length a) a first holeIndex topIndex value.

Fixpoint adjust_heap_loop (n : nat) (a : list string)
  (first holeIndex secondChild len : nat) : list string * nat * nat :=
  match n with
  | O => (a, holeIndex, secondChild)
  | S n' =>
      if (secondChild <? (len - 1) / 2)%nat then
        let secondChild := 2 * (secondChild + 1) in
        let secondChild :=
          if comp (line_at a (first + secondChild))
                  (line_at a (first + (secondChild - 1)))
          then secondChild - 1 else secondChild in
        adjust_heap_loop n'
          (<[first + holeIndex := line_at a (first + secondChild)]> a)
          first secondChild secondChild len
      else (a, holeIndex, secondChild)
  end.

Definition adjust_heap (a : list string) (first holeIndex len : nat)
  (value : string) : list string :=
  let topIndex := holeIndex in
  let '(a, holeIndex, secondChild) :=
    adjust_heap_loop (length a) a first holeIndex holeIndex len in
  let '(a, holeIndex) :=
    if Nat.even len && (secondChild =? (len - 2) / 2)%nat then
      let secondChild := 2 * (secondChild + 1) in
      (<[first + holeIndex := line_at a (first + (secondChild - 1))]> a,
       secondChild - 1)
    else (a, holeIndex) in
  push_heap a first holeIndex topIndex value.

Fixpoint make_heap_loop (n : nat) (a : list string) (first parent len : nat) :=
  match n with
  | O => a
  | S n' =>
      let a := adjust_heap a first parent len (line_at a (first + parent)) in
      if (parent =? 0)%nat then a else make_heap_loop n' a first (parent - 1) len
  end.

Definition make_heap (a : list string) (first last : nat) :=
  if (last - first <? 2)%nat then a
  else make_heap_loop (length a) a first ((last - first - 2) / 2) (last - first).

Definition pop_heap (a : list string) (first last result : nat) :=
  let value := line_at a result in
  adjust_heap (<[result := line_at a first]> a) first 0 (last - first) value.

Fixpoint sort_heap_loop (n : nat) (a : list string) (first last : nat) :=
  match n with
  | O => a
  | S n' =>
      if (1 <? last - first)%nat
      then sort_heap_loop n' (pop_heap a first (last - 1) (last - 1)) first (last - 1)
      else a
  end.

Definition sort_heap a first last := sort_heap_loop (length a) a first last.

Fixpoint heap_select_loop (n : nat) (a : list string) (first middle i : nat) :=
  match n with
  | O => a
  | S n' =>
      heap_select_loop n'
        (if comp (line_at a i) (line_at a first) then pop_heap a first middle i
         else a)
        first middle (S i)
  end.

Definition heap_select a first middle last :=
  heap_select_loop (last - middle) (make_heap a first middle) first middle middle.

Definition partial_sort a first middle last :=
  sort_heap (heap_select a first middle last) first middle.

(** [__introsort_loop]: the [while] loop goes on with the range in front
    of the cut and the depth limit as it was decreased. *)
Fixpoint introsort_loop (depth_limit : nat) (a : list string) (first last : nat)
  : list string :=
  if (S_threshold <? last - first)%nat then
    match depth_limit with
    | O => partial_sort a first last last
    | S depth_limit' =>
        let '(a, cut) := unguarded_partition_pivot a first last in
        introsort_loop depth_limit'
          (introsort_loop depth_limit' a cut last) first cut
    end
  else a.

(** [std::sort(first, last, comp)] on the whole of [a]. *)
Definition sort (a : list string) : list string :=
  let first := 0 in
  let last := length a in
  if (first =? last)%nat then a
  else final_insertion_sort
         (introsort_loop (Nat.log2 (last - first) * 2) a first last) first last.
End Sort.
End Libstdcxx.

(** ** The batch *)

Record Outcome := {
  exit_code : Z;
  std_out : list string;
  std_err : list string;
  files : FileSystem
}.

(** The lines of [g_usage], a raw string that starts and ends with a line
    feed. *)
Definition g_usage : string :=
  String newline
    (stream_bytes
       [ "order_includes sorts includes in go files";
         "includes are divided into three groups: stdlib, platform and third parties";
         "within the groups, they are sorted lexicographically";
         EmptyString;
         "Usage:";
         "./order_includes [file|directory]";
         EmptyString;
         "Example:";
         "./order_includes ../connection.go";
         "./order_includes ../memsql/" ]).

(** The traversal of a directory as [main] sees it: the entries delivered
    one after the other, and whether the traversal then ends by an exception
    of [std::filesystem] (at the construction of the iterator when no entry
    was delivered, at an increment otherwise). *)
Record Walk := { walk_entries : list string; walk_throws : bool }.

Section Main.
Variable std_sort : sort_algorithm.
(** The queries of [std::filesystem] that [main] relies on.
    [fs::is_directory] answers [None] when it throws. Exhaustion of the
    memory aside, nothing else in the [try] block throws: the streams of
    [readFile] and of the renderer do not raise exceptions. *)
Variable is_directory : string -> option bool.
Variable recursive_directory_iterator : string -> Walk.
Variable extension : string -> string.

(** The loop over the entries of the directory. *)
Fixpoint format_entries (entries : list string) (result : list Result)
  (fs : FileSystem) : list Result * FileSystem :=
  match entries with
  | [] => (result, fs)
  | p :: entries' =>
      if String.eqb (extension p) ".go" then
        let '(r, fs') := formatFile std_sort p fs in
        format_entries entries' (result ++ [r]) fs'
      else format_entries entries' result fs
  end.

Definition print_result (r : Result) : string :=
  "[" +:+ m_path r +:+ "][" +:+ m_result_message r +:+ "]".

(** What [catch (...)] leaves: nothing was printed yet, the files rewritten
    so far stay rewritten. *)
Definition unexpected_error (fs : FileSystem) : Outcome :=
  {| exit_code := -2; std_out := [];
     std_err := ["unexpected error occured"]; files := fs |}.

(** [argv] holds the name of the program and its arguments, so [argc] is
    its length. An exception in the [try] block is caught before any report
    is printed. *)
Definition main (argv : list string) (fs : FileSystem) : Outcome :=
  if negb (length argv =? 2)%nat then
    {| exit_code := -1; std_out := []; std_err := [g_usage]; files := fs |}
  else
    let path := line_at argv 1 in
    match is_directory path with
    | None => unexpected_error fs
    | Some directory =>
        let walk :=
          if directory then recursive_directory_iterator path
          else {| walk_entries := [path]; walk_throws := false |} in
        let '(result, fs') := format_entries (walk_entries walk) [] fs in
        if walk_throws walk then unexpected_error fs'
        else if bool_decide (result = []) then
          {| exit_code := -3; std_out := print_result <$> result;
             std_err := ["no go files to order includes"]; files := fs' |}
        else
          {| exit_code := 0; std_out := print_result <$> result;
             std_err := []; files := fs' |}
    end.
End Main.

(** ** Notions the properties are stated with *)

(** [pat] occurs in [str]. *)
Definition contains (pat str : string) : Prop :=
  exists pre post, str = pre +:+ pat +:+ post.

(** [str] begins with [pat]. *)
Definition starts_with (pat str : string) : Prop :=
  exists post, str = pat +:+ post.

(** A line is blank when nothing but white space is in it. *)
Definition blank (line : string) : Prop := removeSpaces line = EmptyString.

Definition third_party_path (line : string) : Prop :=
  contains (String dquote "github.com/") line \/
  contains (String dquote "gopkg.in/") line \/
  contains (String dquote "golang.org/") line \/
  contains (String dquote "pault.ag/") line.

Definition platform_path (line : string) : Prop :=
  contains (String dquote "platform/") line.

Definition standard_library_line (line : string) : Prop :=
  ~ blank line /\ line <> g_deleted_line /\
  ~ starts_with "//" (removeSpaces line).

(** The key of a line under [cmp]. *)
Definition path_key (line : string) : string :=
  removeUserModuleName (removeSpaces line).

(** The delimiters of the block, as [findIncludes] recognizes them. *)
Definition opens_block (line : string) : Prop :=
  removeComments (removeSpaces line) = "import(".

Definition closes_block (line : string) : Prop :=
  removeComments (removeSpaces line) = ")".

(** The shape of a vector in which [findIncludes] finds a block: the lines
    [before] the opening delimiter [imp], the block [blk], and what follows
    it, which starts with the closing delimiter unless it is empty. *)
Record block_shape (before : list string) (imp : string)
  (blk post : list string) : Prop := {
  shape_before : Forall (fun l => ~ opens_block l) before;
  shape_open : opens_block imp;
  shape_block : Forall (fun l => ~ closes_block l) blk;
  shape_post : match post with [] => True | c :: _ => closes_block c end
}.

(** What [deleteEmptyLines] does to one line of the range. *)
Definition mark_blank (line : string) : string :=
  if empty line || all_of_isspace line then g_deleted_line else line.

(** The lines of a range that are written: those that are not the marker. *)
Definition surviving (l : list string) : list string :=
  filter (fun line => line <> g_deleted_line) l.

(** Two neighbours stand at a boundary of categories when both have a
    category and the categories differ. *)
Definition category_boundary (current next : string) : bool :=
  ModuleType.neqb (moduleType current) ModuleType.None &&
  ModuleType.neqb (moduleType next) ModuleType.None &&
  ModuleType.neqb (moduleType current) (moduleType next).

(** The lines of a block, with one empty line between two neighbours at a
    boundary of categories and nothing else between two neighbours. *)
Fixpoint separated (l : list string) : list string :=
  match l with
  | [] => []
  | current :: rest =>
      match rest with
      | [] => [current]
      | next :: _ =>
          if category_boundary current next
          then current :: EmptyString :: separated rest
          else current :: separated rest
      end
  end.

(** The loop of the renderer as a recursion on the lines from index [i]
    on. *)
Fixpoint render_from (includeBegin includeEnd i : nat) (rest : list string)
  : list string :=
  match rest with
  | [] => []
  | current :: rest' =>
      (if negb (String.eqb current g_deleted_line) then [current] else []) ++
      (match rest' with
       | [] => []
       | next :: _ =>
           if negb (String.eqb current g_deleted_line) &&
              negb (String.eqb next g_deleted_line) &&
              withinIncludes i includeBegin includeEnd &&
              withinIncludes (i + 1) includeBegin includeEnd &&
              category_boundary current next
           then [EmptyString] else []
       end) ++
      render_from includeBegin includeEnd (S i) rest'
  end.

(** A line as [std::getline] delivers it holds no line feed. *)
Definition newline_free (line : string) : Prop :=
  ~ contains (String newline EmptyString) line.

(** No two lines of the range that are written, those that are neither
    blank nor the marker, differ and yet are equivalent under [cmp], that is,
    have one category and one key. *)
Definition tie_free (l : list string) : Prop :=
  forall x y, x ∈ l -> y ∈ l ->
    ~ blank x -> ~ blank y ->
    x <> g_deleted_line -> y <> g_deleted_line ->
    moduleType x = moduleType y -> path_key x = path_key y -> x = y.

(** The located block of a vector. *)
Definition located_block (lines : list string) : list string :=
  let '(begin, end_) := findIncludes lines in
  take (end_ - begin) (drop begin lines).

(** The block as the renderer writes it, whatever comes after it. *)
Fixpoint render_block (blk : list string) : list string :=
  match blk with
  | [] => []
  | current :: rest =>
      (if negb (String.eqb current g_deleted_line) then [current] else []) ++
      (match rest with
       | [] => []
       | next :: _ =>
           if negb (String.eqb current g_deleted_line) &&
              negb (String.eqb next g_deleted_line) &&
              category_boundary current next
           then [EmptyString] else []
       end) ++ render_block rest
  end.

(** The normalization of a line as the specification words it, written
    without the functions of the program. First, the line without its white
    space. *)
Definition without_white_space (line : string) : string :=
  string_of_list_ascii
    (filter (fun ch => isspace ch = false) (list_ascii_of_string line)).

(** Then the text in front of the first [//]. *)
Fixpoint before_comment (str : string) : string :=
  match str with
  | EmptyString => EmptyString
  | String ch rest =>
      match rest with
      | String next _ =>
          if Ascii.eqb ch "/"%char && Ascii.eqb next "/"%char then EmptyString
          else String ch (before_comment rest)
      | EmptyString => String ch EmptyString
      end
  end.

(** A line is the opening delimiter when, white space removed and cut at
    the first [//], it is [import(]; the closing delimiter when it is [)]. *)
Definition opening_delimiter (line : string) : Prop :=
  before_comment (without_white_space line) = "import(".

Definition closing_delimiter (line : string) : Prop :=
  before_comment (without_white_space line) = ")".

(** The text from the first quotation mark on, if there is one. *)
Fixpoint from_first_quote (str : string) : option string :=
  match str with
  | EmptyString => None
  | String ch rest =>
      if Ascii.eqb ch dquote then Some str else from_first_quote rest
  end.

(** The import path key: the line without white space, from its first
    quotation mark on when it has one, so that a name in front of the quoted
    path does not count. *)
Definition import_path_key (line : string) : string :=
  default (without_white_space line)
    (from_first_quote (without_white_space line)).

(** Two written lines stand in order when the category of the first has the
    lower rank or, the categories being equal, its import path key is not
    above the import path key of the second. *)
Definition in_order (x y : string) : Prop :=
  (moduleType x <> moduleType y ->
   ModuleType.rank (moduleType x) < ModuleType.rank (moduleType y)) /\
  (moduleType x = moduleType y ->
   String.le (import_path_key x) (import_path_key y)).

(** Whether the last byte of a file is a line feed. *)
Fixpoint ends_with_newline (file : string) : bool :=
  match file with
  | EmptyString => false
  | String ch rest =>
      match rest with
      | EmptyString => Ascii.eqb ch newline
      | String _ _ => ends_with_newline rest
      end
  end.

(** In a rendered block every blank line is an empty line between two lines
    at a boundary of categories, and two neighbours that are not blank are
    not at a boundary. *)
Definition separators_at_boundaries (out : list string) : Prop :=
  (forall k l, out !! k = Some l -> blank l ->
     l = EmptyString /\
     exists x y, 1 <= k /\ out !! (k - 1) = Some x /\ out !! (k + 1) = Some y /\
       ~ blank x /\ ~ blank y /\ category_boundary x y = true) /\
  (forall k x y, out !! k = Some x -> out !! (k + 1) = Some y ->
     ~ blank x -> ~ blank y -> category_boundary x y = false).

(** The lines of the sorted block that are written. *)
Definition survivors (std_sort : sort_algorithm) (blk : list string)
  : list string :=
  surviving (std_sort cmp (mark_blank <$> blk)).

(** [tie_free], decided. *)
Definition tie_freeb (l : list string) : bool :=
  forallb (fun x =>
    forallb (fun y =>
      implb (negb (all_of_isspace x) && negb (all_of_isspace y) &&
             negb (String.eqb x g_deleted_line) &&
             negb (String.eqb y g_deleted_line) &&
             negb (ModuleType.neqb (moduleType x) (moduleType y)) &&
             String.eqb (path_key x) (path_key y))
            (String.eqb x y)) l) l.

(** ** Sample files *)

Definition tab : string := String (ascii_of_nat 9) EmptyString.

(** An import path between quotation marks, after a tabulation. *)
Definition import_line (alias path : string) : string :=
  tab +:+ alias +:+ String dquote path +:+ String dquote EmptyString.

(** A block with the three categories out of order and an empty line. *)
Definition three_groups : FileSystem :=
  {[ "a.go" := stream_bytes
       [ "package a"; "import ("; import_line EmptyString "fmt"; EmptyString;
         import_line EmptyString "github.com/x/y";
         import_line EmptyString "platform/z"; ")"; "func main() {}" ] ]}.

(** A file whose first line is the text of the marker. *)
Definition marker_outside : FileSystem :=
  {[ "a.go" := stream_bytes
       [ g_deleted_line; "import ("; import_line EmptyString "fmt"; ")" ] ]}.

(** Two imports of one path under two names. *)
Definition two_aliases : FileSystem :=
  {[ "a.go" := stream_bytes
       [ "import ("; import_line "a " "fmt"; import_line "b " "fmt"; ")" ] ]}.

(** Seventeen imports of one path under seventeen names. *)
Definition seventeen_aliases : FileSystem :=
  {[ "a.go" := stream_bytes
       ("import (" ::
        ((fun i => import_line (String (ascii_of_nat (97 + i)) " ") "fmt")
           <$> seq 0 17) ++ [")"]) ]}.

(** A file without bytes, a file with an import that is not a block. *)
Definition no_bytes : FileSystem := {[ "a.go" := EmptyString ]}.

Definition single_import : FileSystem :=
  {[ "a.go" := stream_bytes [ "package a"; "import " +:+ String dquote "fmt" +:+ String dquote EmptyString ] ]}.

(** Blankness is decided by the comparison of strings. *)
#[global] Instance blank_dec (line : string) : Decision (blank line) :=
  decide (removeSpaces line = EmptyString).

(** The lines of a block that count as imports or comments: neither blank
    nor the marker. *)
Definition block_entries (blk : list string) : list string :=
  filter (fun line => ~ blank line /\ line <> g_deleted_line) blk.

(** Two imports of one category whose names and paths are in opposite
    orders. *)
Definition aliased_imports : FileSystem :=
  {[ "a.go" := stream_bytes
       [ "import ("; import_line "a " "os"; import_line "z " "fmt"; ")" ] ]}.

(** Delimiters with white space and comments, around no line and around two
    lines. *)
Definition commented_delimiters : FileSystem :=
  {[ "a.go" := stream_bytes [ "  import (  // deps"; " ) // end" ];
     "b.go" := stream_bytes
       [ "package b"; "import(// deps"; import_line EmptyString "os";
         import_line EmptyString "fmt"; ")// end"; ")" ] ]}.

(** A block of blank lines only. *)
Definition blank_block : FileSystem :=
  {[ "a.go" := stream_bytes [ "import ("; EmptyString; "  "; ")" ] ]}.

(** * Properties *)

(** ** Searching in strings *)

Lemma append_String ch s t : String ch s +:+ t = String ch (s +:+ t).
Proof. reflexivity. Qed.

Lemma append_empty_l s : EmptyString +:+ s = s.
Proof. reflexivity. Qed.

Lemma prefix_starts_with pat str :
  String.prefix pat str = true <-> starts_with pat str.
Proof.
  unfold starts_with. revert str.
  induction pat as [|c pat IH]; intros str; simpl.
  - split; [intros _; by exists str | by destruct str].
  - destruct str as [|d str]; simpl.
    + split; [done | intros [post H]; discriminate H].
    + setoid_rewrite append_String. destruct (ascii_dec c d) as [->|Hne].
      * rewrite IH. split; intros [post H]; exists post; congruence.
      * split; [done | intros [post H]; congruence].
Qed.

Lemma find_Some pat str n :
  find pat str = Some n ->
  exists pre post, str = pre +:+ pat +:+ post /\ String.length pre = n.
Proof.
  revert n. induction str as [|c str IH]; intros n; cbn [find].
  - destruct (String.prefix pat EmptyString) eqn:Hp; [|done].
    intros [= <-]. apply prefix_starts_with in Hp as [post Hp].
    by exists EmptyString, post.
  - destruct (String.prefix pat (String c str)) eqn:Hp.
    + intros [= <-]. apply prefix_starts_with in Hp as [post Hp].
      by exists EmptyString, post.
    + destruct (find pat str) as [m|]; [|done]. intros [= <-].
      destruct (IH m eq_refl) as (pre & post & -> & <-).
      by exists (String c pre), post.
Qed.

Lemma find_None pat str : find pat str = None -> ~ contains pat str.
Proof.
  induction str as [|c str IH]; cbn [find].
  - destruct (String.prefix pat EmptyString) eqn:Hp; [done|].
    intros _ (pre & post & H). destruct pre; [|done].
    assert (starts_with pat EmptyString) as Hs by (by exists post).
    apply prefix_starts_with in Hs. congruence.
  - destruct (String.prefix pat (String c str)) eqn:Hp; [done|].
    destruct (find pat str) as [m|]; [done|]. intros _ (pre & post & H).
    destruct pre as [|d pre].
    + assert (starts_with pat (String c str)) as Hs by (by exists post).
      apply prefix_starts_with in Hs. congruence.
    + rewrite append_String in H. injection H as -> ->.
      apply IH; [done|]. by exists pre, post.
Qed.

Lemma found_contains pat str : found pat str = true <-> contains pat str.
Proof.
  unfold found. destruct (find pat str) as [n|] eqn:Hf.
  - split; [|done]. intros _. apply find_Some in Hf as (pre & post & -> & _).
    by exists pre, post.
  - split; [done|]. intros Hc. by apply find_None in Hf.
Qed.

Lemma find_zero_starts_with pat str :
  find pat str = Some 0 <-> starts_with pat str.
Proof.
  split.
  - intros (pre & post & -> & Hl)%find_Some. destruct pre; [|done].
    by exists post.
  - intros Hs%prefix_starts_with. destruct str; cbn [find]; by rewrite Hs.
Qed.

Lemma contains_String pat ch str :
  contains pat str -> contains pat (String ch str).
Proof. intros (pre & post & ->). by exists (String ch pre), post. Qed.

Lemma contains_char_inv c d str :
  contains (String c EmptyString) (String d str) ->
  c = d \/ contains (String c EmptyString) str.
Proof.
  intros (pre & post & H). destruct pre as [|e pre].
  - left. rewrite append_empty_l, append_String in H. congruence.
  - right. rewrite append_String in H. injection H as -> ->. by exists pre, post.
Qed.

(** ** The classifier *)

Lemma all_of_isspace_blank str : all_of_isspace str = true <-> blank str.
Proof.
  unfold blank. induction str as [|ch str IH]; simpl; [done|].
  destruct (isspace ch); simpl; [done|]. split; discriminate.
Qed.

Lemma isThirdPartyModule_spec str :
  isThirdPartyModule str = true <-> third_party_path str.
Proof.
  unfold isThirdPartyModule, third_party_path.
  rewrite !orb_true_iff, !found_contains. tauto.
Qed.

Lemma isPlatformModule_spec str :
  isPlatformModule str = true <-> platform_path str.
Proof. apply found_contains. Qed.

Lemma isStdLibModule_spec str :
  isThirdPartyModule str = false -> isPlatformModule str = false ->
  isStdLibModule str = true <-> standard_library_line str.
Proof.
  intros Ht Hp. unfold isStdLibModule, standard_library_line.
  rewrite Ht, Hp, <-all_of_isspace_blank, <-find_zero_starts_with.
  destruct str as [|ch str]; [simpl; split; [done | intros [[] _]; done]|].
  cbn [empty]. destruct (all_of_isspace (String ch str)).
  { split; [done | by intros [[] _]]. }
  destruct (String.eqb_spec (String ch str) g_deleted_line) as [Hd|Hd].
  { split; [done | by intros (_ & [] & _)]. }
  case_bool_decide as Hc.
  - split; [done | by intros (_ & _ & [])].
  - split; [|done]. intros _. split; [by intros [=] | done].
Qed.

(** C6. [moduleType] sends every line to one category, by the first rule
    that applies: third party if the line contains one of the four quoted
    host prefixes; else platform if it contains the quoted platform prefix;
    else standard library if the line is not blank, is not the marker and
    does not begin with [//] once the white space is removed; else none.
    Being a function of the text alone, equal texts get equal categories. *)
Theorem moduleType_precedence (line : string) :
  (third_party_path line /\ moduleType line = ModuleType.ThirdParty) \/
  (~ third_party_path line /\ platform_path line /\
     moduleType line = ModuleType.Platform) \/
  (~ third_party_path line /\ ~ platform_path line /\
     standard_library_line line /\ moduleType line = ModuleType.StdLib) \/
  (~ third_party_path line /\ ~ platform_path line /\
     ~ standard_library_line line /\ moduleType line = ModuleType.None).
Proof.
  unfold moduleType.
  destruct (isThirdPartyModule line) eqn:Ht.
  { left. by rewrite <-isThirdPartyModule_spec. }
  right. assert (~ third_party_path line) as Hnt.
  { rewrite <-isThirdPartyModule_spec. congruence. }
  destruct (isPlatformModule line) eqn:Hp.
  { left. by rewrite <-isPlatformModule_spec. }
  right. assert (~ platform_path line) as Hnp.
  { rewrite <-isPlatformModule_spec. congruence. }
  pose proof (isStdLibModule_spec line Ht Hp) as Hs.
  destruct (isStdLibModule line); [left | right].
  - split; [done|]. split; [done|]. split; [by apply Hs | done].
  - split; [done|]. split; [done|]. split; [|done].
    intros Hc. apply Hs in Hc. discriminate Hc.
Qed.

(** ** The import path key *)

Lemma removeSpaces_contains_char ch str :
  isspace ch = false ->
  contains (String ch EmptyString) (removeSpaces str) ->
  contains (String ch EmptyString) str.
Proof.
  intros Hch. induction str as [|d str IH]; simpl; [done|].
  destruct (isspace d) eqn:Hd.
  - intros H. by apply contains_String, IH.
  - intros [->|H]%contains_char_inv.
    + by exists EmptyString, str.
    + by apply contains_String, IH.
Qed.

Lemma removeUserModuleName_id str :
  ~ contains (String dquote EmptyString) str -> removeUserModuleName str = str.
Proof.
  intros Hq. unfold removeUserModuleName.
  destruct (find _ str) as [n|] eqn:Hf; [|done].
  destruct Hq. apply found_contains. unfold found. by rewrite Hf.
Qed.

(** C10. On a line without quotation mark, [removeUserModuleName] changes
    nothing, before as well as after the removal of the white space; two
    such lines of one category, none of them the marker, are compared by
    their whole text without white space. *)
Theorem removeUserModuleName_without_quote (line : string) :
  ~ contains (String dquote EmptyString) line ->
  removeUserModuleName line = line /\
  removeUserModuleName (removeSpaces line) = removeSpaces line /\
  forall other : string,
    ~ contains (String dquote EmptyString) other ->
    line <> g_deleted_line -> other <> g_deleted_line ->
    moduleType line = moduleType other ->
    cmp line other = String.ltb (removeSpaces line) (removeSpaces other) /\
    cmp other line = String.ltb (removeSpaces other) (removeSpaces line).
Proof.
  intros Hq.
  assert (forall l, ~ contains (String dquote EmptyString) l ->
            removeUserModuleName (removeSpaces l) = removeSpaces l) as Hk.
  { intros l Hl. apply removeUserModuleName_id. intros Hc. apply Hl.
    by apply removeSpaces_contains_char in Hc. }
  split; [by apply removeUserModuleName_id|]. split; [by apply Hk|].
  intros other Hqo Hl Ho Ht. unfold cmp.
  apply String.eqb_neq in Hl, Ho. rewrite Hl, Ho, Ht. simpl.
  unfold ModuleType.neqb. rewrite Nat.eqb_refl. simpl.
  by rewrite !Hk.
Qed.

Lemma removeUserModuleName_without_quote_witness :
  removeUserModuleName "// net" = "// net" /\
  cmp "// net" "// io" = false.
Proof.
  assert (~ contains (String dquote EmptyString) "// net") as H1.
  { apply find_None. reflexivity. }
  assert (~ contains (String dquote EmptyString) "// io") as H2.
  { apply find_None. reflexivity. }
  destruct (removeUserModuleName_without_quote "// net" H1) as (Ha & _ & Hb).
  split; [exact Ha|].
  destruct (Hb "// io" H2) as [Hc _]; [done | done | reflexivity |].
  rewrite Hc. reflexivity.
Defined.

(** ** The comparator *)

Lemma ltb_leb a b : String.ltb a b = negb (String.leb b a).
Proof.
  unfold String.ltb, String.leb. rewrite String.compare_antisym.
  by destruct (String.compare b a).
Qed.

Lemma leb_le a b : String.leb a b = true <-> String.le a b.
Proof. unfold String.le. by destruct (String.leb a b). Qed.

(** [cmp x y] fails exactly when [y] may stand in front of [x]. *)
Lemma cmp_false_iff x y :
  cmp x y = false <->
  x = g_deleted_line \/
  (y <> g_deleted_line /\
   (ModuleType.rank (moduleType y) < ModuleType.rank (moduleType x) \/
    (moduleType y = moduleType x /\ String.le (path_key y) (path_key x)))).
Proof.
  unfold cmp, path_key, ModuleType.neqb, ModuleType.ltb.
  destruct (String.eqb_spec x g_deleted_line) as [Hx|Hx];
    destruct (String.eqb_spec y g_deleted_line) as [Hy|Hy]; simpl.
  - split; [by left | done].
  - split; [by left | done].
  - split; [done | by intros [?|[? _]]].
  - rewrite ltb_leb, <-leb_le.
    destruct (Nat.eqb_spec (ModuleType.rank (moduleType x))
                (ModuleType.rank (moduleType y))) as [He|He]; simpl.
    + assert (moduleType y = moduleType x) as Ht.
      { by destruct (moduleType x), (moduleType y). }
      rewrite negb_false_iff. split.
      * intros Hle. right. split; [done|]. by right.
      * intros [?|[_ [?|[_ ?]]]]; [done | lia | done].
    + rewrite Nat.ltb_ge. split.
      * intros Hle. right. split; [done|]. left. lia.
      * intros [?|[_ [?|[Ht _]]]]; [done | lia |]. by rewrite Ht in He.
Qed.

Lemma cmp_asymmetric x y : cmp x y = true -> cmp y x = false.
Proof.
  intros Hxy. destruct (cmp y x) eqn:Hyx; [|done].
  apply not_false_iff_true in Hxy, Hyx. rewrite cmp_false_iff in Hxy, Hyx.
  exfalso. apply Hyx.
  destruct (decide (y = g_deleted_line)) as [?|Hy]; [by left|].
  right. destruct (decide (x = g_deleted_line)) as [?|Hx]; [naive_solver|].
  split; [done|].
  destruct (lt_eq_lt_dec (ModuleType.rank (moduleType x))
              (ModuleType.rank (moduleType y))) as [[Hlt|Heq]|Hgt].
  - by left.
  - assert (moduleType y = moduleType x) as Ht.
    { by destruct (moduleType x), (moduleType y). }
    right. split; [done|].
    destruct (total String.le (path_key x) (path_key y)); [done|].
    destruct Hxy. right. split; [done|]. by right.
  - destruct Hxy. right. split; [done|]. by left.
Qed.

Lemma cmp_negatively_transitive x y z :
  cmp x y = false -> cmp y z = false -> cmp x z = false.
Proof.
  rewrite !cmp_false_iff. intros [?|[Hy Hxy]] Hyz; [by left|].
  destruct Hyz as [?|[Hz Hyz]]; [done|]. right. split; [done|].
  destruct Hxy as [?|[Ht1 Hl1]], Hyz as [?|[Ht2 Hl2]].
  - left. lia.
  - left. by rewrite Ht2.
  - left. by rewrite <-Ht1.
  - right. split; [congruence|]. by etrans.
Qed.

Lemma cmp_strict_weak_ordering : strict_weak_ordering cmp.
Proof.
  split.
  - intros x. destruct (cmp x x) eqn:H; [|done].
    by rewrite (cmp_asymmetric _ _ H) in H.
  - intros x y z Hxy Hyz. destruct (cmp x z) eqn:Hxz; [done|].
    pose proof (cmp_negatively_transitive _ _ _ Hxz (cmp_asymmetric _ _ Hyz)).
    congruence.
  - intros x y z H1 H2 H3 H4. split; by eapply cmp_negatively_transitive.
Qed.

(** C8. The marker is never less than a line, every other line is less than
    the marker, hence two markers are equivalent; and [cmp] is a strict weak
    ordering, as [std::sort] requires. *)
Theorem cmp_marker_last_and_strict_weak :
  (forall x, cmp g_deleted_line x = false) /\
  (forall x, x <> g_deleted_line -> cmp x g_deleted_line = true) /\
  cmp g_deleted_line g_deleted_line = false /\
  strict_weak_ordering cmp.
Proof.
  split; [|split; [|split]].
  - intros x. apply cmp_false_iff. by left.
  - intros x Hx. apply not_false_iff_true. rewrite cmp_false_iff.
    intros [?|[? _]]; done.
  - reflexivity.
  - apply cmp_strict_weak_ordering.
Qed.

(** ** The normalization of a line *)

(** The functions of the program compute the normalization as the
    specification words it. *)
Lemma removeSpaces_without_white_space line :
  removeSpaces line = without_white_space line.
Proof.
  unfold without_white_space. induction line as [|ch line IH]; [done|].
  simpl. destruct (isspace ch) eqn:Hch.
  - by rewrite filter_cons_False by (by rewrite Hch).
  - rewrite filter_cons_True by done. simpl. by rewrite IH.
Qed.

Lemma removeComments_before_comment str :
  removeComments str = before_comment str.
Proof.
  unfold removeComments. induction str as [|ch str IH]; [done|].
  cbn [find]. destruct (String.prefix "//" (String ch str)) eqn:Hp.
  - apply prefix_starts_with in Hp as [post Hp].
    rewrite !append_String in Hp. injection Hp as -> ->. reflexivity.
  - assert (before_comment (String ch str) = String ch (before_comment str))
      as ->.
    { cbn [before_comment]. destruct str as [|next str]; [done|].
      destruct (Ascii.eqb_spec ch "/") as [->|?]; [|done].
      destruct (Ascii.eqb_spec next "/") as [->|?]; [|done].
      assert (starts_with "//" (String "/" (String "/" str))) as Hs
        by (by exists str).
      apply prefix_starts_with in Hs. congruence. }
    rewrite <-IH. by destruct (find "//" str).
Qed.

Lemma from_first_quote_find str :
  from_first_quote str
  = (fun n => string_drop n str) <$> find (String dquote EmptyString) str.
Proof.
  induction str as [|ch str IH]; [done|]. cbn [find from_first_quote].
  destruct (String.prefix _ (String ch str)) eqn:Hp.
  - apply prefix_starts_with in Hp as [post Hp].
    rewrite append_String in Hp. injection Hp as -> _.
    by rewrite Ascii.eqb_refl.
  - destruct (Ascii.eqb_spec ch dquote) as [->|Hne].
    + assert (starts_with (String dquote EmptyString) (String dquote str))
        as Hs by (by exists str).
      apply prefix_starts_with in Hs. congruence.
    + rewrite IH. by destruct (find (String dquote EmptyString) str).
Qed.

Lemma path_key_import_path_key line : path_key line = import_path_key line.
Proof.
  unfold path_key, import_path_key, removeUserModuleName.
  rewrite <-removeSpaces_without_white_space, from_first_quote_find.
  by destruct (find _ (removeSpaces line)).
Qed.

Lemma opens_block_opening_delimiter line :
  opens_block line <-> opening_delimiter line.
Proof.
  unfold opens_block, opening_delimiter.
  by rewrite removeComments_before_comment, removeSpaces_without_white_space.
Qed.

Lemma closes_block_closing_delimiter line :
  closes_block line <-> closing_delimiter line.
Proof.
  unfold closes_block, closing_delimiter.
  by rewrite removeComments_before_comment, removeSpaces_without_white_space.
Qed.

(** ** The block locator *)

Lemma findIncludes_begin_none rest begin :
  Forall (fun l => ~ opens_block l) rest ->
  findIncludes_begin rest begin = begin + length rest.
Proof.
  intros H. revert begin. induction H as [|l rest Hl _ IH]; intros begin; simpl.
  - lia.
  - apply String.eqb_neq in Hl. rewrite Hl, IH. lia.
Qed.

Lemma findIncludes_begin_first before imp rest begin :
  Forall (fun l => ~ opens_block l) before -> opens_block imp ->
  findIncludes_begin (before ++ imp :: rest) begin = S (begin + length before).
Proof.
  intros H Hi. revert begin. induction H as [|l before Hl _ IH]; intros begin; simpl.
  - apply String.eqb_eq in Hi. rewrite Hi. lia.
  - apply String.eqb_neq in Hl. rewrite Hl, IH. lia.
Qed.

Lemma findIncludes_end_first blk post end_ :
  Forall (fun l => ~ closes_block l) blk ->
  match post with [] => True | c :: _ => closes_block c end ->
  findIncludes_end (blk ++ post) end_ = end_ + length blk.
Proof.
  intros H Hp. revert end_. induction H as [|l blk Hl _ IH]; intros end_; simpl.
  - destruct post as [|c post]; simpl; [lia|].
    apply String.eqb_eq in Hp. rewrite Hp. lia.
  - apply String.eqb_neq in Hl. rewrite Hl, IH. lia.
Qed.

(** Every vector splits at the first opening delimiter, if there is one. *)
Lemma split_at_open (lines : list string) :
  Forall (fun l => ~ opens_block l) lines \/
  exists before imp rest,
    lines = before ++ imp :: rest /\
    Forall (fun l => ~ opens_block l) before /\ opens_block imp.
Proof.
  induction lines as [|l lines IH]; [by left|].
  destruct (decide (opens_block l)) as [Hl|Hl].
  - right. by exists [], l, lines.
  - destruct IH as [IH|(before & imp & rest & -> & Hb & Hi)].
    + left. by constructor.
    + right. exists (l :: before), imp, rest. split; [done|]. by split; [constructor|].
Qed.

(** Every vector splits at the first closing delimiter, if there is one. *)
Lemma split_at_close (lines : list string) :
  exists blk post,
    lines = blk ++ post /\
    Forall (fun l => ~ closes_block l) blk /\
    match post with [] => True | c :: _ => closes_block c end.
Proof.
  induction lines as [|l lines (blk & post & -> & Hb & Hp)].
  - by exists [], [].
  - destruct (decide (closes_block l)) as [Hl|Hl].
    + by exists [], (l :: blk ++ post).
    + exists (l :: blk), post. split; [done|]. by split; [constructor|].
Qed.

Lemma findIncludes_shape before imp blk post :
  block_shape before imp blk post ->
  findIncludes (before ++ imp :: blk ++ post)
  = (S (length before), S (length before) + length blk).
Proof.
  intros [Hb Hi Hk Hp]. unfold findIncludes.
  rewrite findIncludes_begin_first by done. simpl.
  assert (drop (S (length before)) (before ++ imp :: blk ++ post)
          = blk ++ post) as ->.
  { replace (before ++ imp :: blk ++ post)
      with ((before ++ [imp]) ++ blk ++ post) by by rewrite <-(assoc_L (++)).
    replace (S (length before)) with (length (before ++ [imp]))
      by (rewrite length_app; simpl; lia).
    apply drop_app_length. }
  by rewrite findIncludes_end_first.
Qed.

Lemma findIncludes_no_open lines :
  Forall (fun l => ~ opens_block l) lines ->
  findIncludes lines = (length lines, length lines).
Proof.
  intros H. unfold findIncludes. rewrite findIncludes_begin_none by done.
  simpl. by rewrite drop_all.
Qed.

(** Every vector either has no opening delimiter or has the shape above. *)
Lemma block_shape_exists (lines : list string) :
  Forall (fun l => ~ opens_block l) lines \/
  exists before imp blk post,
    lines = before ++ imp :: blk ++ post /\ block_shape before imp blk post.
Proof.
  destruct (split_at_open lines) as [H|(before & imp & rest & -> & Hb & Hi)];
    [by left|].
  destruct (split_at_close rest) as (blk & post & -> & Hk & Hp).
  right. by exists before, imp, blk, post.
Qed.

Lemma findIncludes_bounds lines :
  (findIncludes lines).1 <= (findIncludes lines).2 <= length lines.
Proof.
  destruct (block_shape_exists lines)
    as [H|(before & imp & blk & post & -> & Hs)].
  - rewrite findIncludes_no_open by done. simpl. lia.
  - rewrite findIncludes_shape by done. simpl.
    rewrite length_app. simpl. rewrite length_app. lia.
Qed.

(** The two early exits of [formatFile]. *)
Lemma formatFile_unreadable std_sort path fs :
  readFile path fs = [] ->
  formatFile std_sort path fs
  = ({| m_path := path; m_result_message := "failed to read from file" |}, fs).
Proof. intros H. unfold formatFile. by rewrite H. Qed.

Lemma formatFile_no_block std_sort path fs :
  readFile path fs <> [] ->
  (findIncludes (readFile path fs)).2 <= (findIncludes (readFile path fs)).1 ->
  formatFile std_sort path fs
  = ({| m_path := path; m_result_message := "no includes found" |}, fs).
Proof.
  intros Hne Hle. unfold formatFile. rewrite bool_decide_eq_false_2 by done.
  destruct (findIncludes (readFile path fs)) as [b e]. simpl in Hle.
  apply Nat.leb_le in Hle. by rewrite Hle.
Qed.

(** The bounds in the terms of the tests of [findIncludes]. *)
Lemma findIncludes_first_delimiters (lines : list string) :
  let begin := (findIncludes lines).1 in
  let end_ := (findIncludes lines).2 in
  ((exists k imp, lines !! k = Some imp /\ opens_block imp /\
      (forall j l, j < k -> lines !! j = Some l -> ~ opens_block l) /\
      begin = S k) \/
   ((forall l, l ∈ lines -> ~ opens_block l) /\ begin = length lines)) /\
  ((exists c, lines !! end_ = Some c /\ closes_block c) \/
   end_ = length lines) /\
  (forall i l, begin <= i < end_ -> lines !! i = Some l -> ~ closes_block l) /\
  begin <= end_ <= length lines /\
  (forall std_sort path fs,
     readFile path fs = lines -> lines <> [] -> begin = end_ ->
     formatFile std_sort path fs
     = ({| m_path := path; m_result_message := "no includes found" |}, fs)).
Proof.
  intros begin end_.
  assert (begin <= end_ <= length lines) as Hbounds
    by apply findIncludes_bounds.
  assert (forall std_sort path fs,
     readFile path fs = lines -> lines <> [] -> begin = end_ ->
     formatFile std_sort path fs
     = ({| m_path := path; m_result_message := "no includes found" |}, fs))
    as Hdriver.
  { intros std_sort path fs <- Hne Heq. apply formatFile_no_block; [done|].
    subst begin end_. lia. }
  subst begin end_.
  destruct (block_shape_exists lines)
    as [H|(before & imp & blk & post & -> & [Hb Hi Hk Hp])].
  - rewrite findIncludes_no_open in * by done. simpl in *.
    split; [right; split; [by apply Forall_forall | done]|].
    split; [by right|]. split; [intros; lia | done].
  - rewrite findIncludes_shape in * by done. simpl in *.
    split; [|split; [|split; [|done]]].
    + left. exists (length before), imp.
      split; [apply list_lookup_middle; done|]. split; [done|].
      split; [|done]. intros j l Hj Hl. rewrite lookup_app_l in Hl by done.
      rewrite Forall_forall in Hb. eapply Hb, list_elem_of_lookup_2, Hl.
    + destruct post as [|c post].
      * right. rewrite length_app. simpl. rewrite length_app. simpl. lia.
      * left. exists c. split; [|done].
        replace (before ++ imp :: blk ++ c :: post)
          with ((before ++ imp :: blk) ++ c :: post)
          by (by rewrite <-(assoc_L (++))).
        apply list_lookup_middle. rewrite length_app. simpl. lia.
    + intros i l Hi' Hl.
      replace (before ++ imp :: blk ++ post)
        with ((before ++ [imp]) ++ blk ++ post) in Hl
        by (by rewrite <-(assoc_L (++))).
      rewrite lookup_app_r in Hl by (rewrite length_app; simpl; lia).
      rewrite length_app in Hl. simpl in Hl.
      rewrite lookup_app_l in Hl by lia.
      rewrite Forall_forall in Hk. eapply Hk, list_elem_of_lookup_2, Hl.
Qed.

(** C5, as the program has it. [begin] is the index after the first line
    that is [import(] once all its white space is removed and it is cut at the
    first [//], or the end of the sequence without such a line; [end] is the
    index of the first line from [begin] on that is [)] under the same
    normalization, or the end of the sequence; [begin <= end]; and a file of
    at least one line with [begin = end] is reported as having no includes
    and keeps its bytes. *)
Theorem findIncludes_locates (lines : list string) :
  let begin := (findIncludes lines).1 in
  let end_ := (findIncludes lines).2 in
  ((exists k imp, lines !! k = Some imp /\ opening_delimiter imp /\
      (forall j l, j < k -> lines !! j = Some l -> ~ opening_delimiter l) /\
      begin = S k) \/
   ((forall l, l ∈ lines -> ~ opening_delimiter l) /\ begin = length lines)) /\
  ((exists c, lines !! end_ = Some c /\ closing_delimiter c) \/
   end_ = length lines) /\
  (forall i l, begin <= i < end_ -> lines !! i = Some l -> ~ closing_delimiter l) /\
  begin <= end_ <= length lines /\
  (forall std_sort path fs,
     readFile path fs = lines -> lines <> [] -> begin = end_ ->
     formatFile std_sort path fs
     = ({| m_path := path; m_result_message := "no includes found" |}, fs)).
Proof.
  intros begin end_. subst begin end_.
  destruct (findIncludes_first_delimiters lines) as (H1 & H2 & H3 & H4 & H5).
  split; [|split; [|split; [|by split]]].
  - destruct H1 as [(k & imp & Hk & Hi & Hj & Hb)|[Hn Hb]].
    + left. exists k, imp. split; [done|].
      split; [by apply opens_block_opening_delimiter|]. split; [|done].
      intros j l Hlt Hl Ho. by apply (Hj j l Hlt Hl), opens_block_opening_delimiter.
    + right. split; [|done]. intros l Hl Ho.
      by apply (Hn l Hl), opens_block_opening_delimiter.
  - destruct H2 as [(c & Hc & Hcl)|He]; [|by right].
    left. exists c. split; [done|]. by apply closes_block_closing_delimiter.
  - intros i l Hi Hl Hc. by apply (H3 i l Hi Hl), closes_block_closing_delimiter.
Qed.

(** ** Reading and writing *)

Lemma getline_chars_shorter file :
  String.length (getline_chars file).2 <= String.length file.
Proof.
  induction file as [|ch file IH]; simpl; [done|].
  destruct (Ascii.eqb ch newline); simpl; [lia|].
  destruct (getline_chars file). simpl in *. lia.
Qed.

Lemma getline_shorter file line unread :
  getline file = Some (line, unread) ->
  String.length unread < String.length file.
Proof.
  destruct file as [|ch file]; [done|]. intros [= H].
  pose proof (getline_chars_shorter file) as Hl. simpl in *.
  destruct (Ascii.eqb ch newline).
  - injection H as _ <-. lia.
  - destruct (getline_chars file). injection H as _ <-. simpl in *. lia.
Qed.

(** The fuel of [readFile] is never exhausted: more fuel reads nothing
    more. *)
Lemma readFile_loop_fuel fuel fuel' file result :
  String.length file < fuel -> String.length file < fuel' ->
  readFile_loop fuel file result = readFile_loop fuel' file result.
Proof.
  revert fuel' file result.
  induction fuel as [|fuel IH]; intros fuel' file result Hf Hf'; [lia|].
  destruct fuel' as [|fuel']; [lia|]. simpl.
  destruct (getline file) as [[line unread]|] eqn:Hg; [|done].
  apply getline_shorter in Hg. apply IH; lia.
Qed.

Lemma newline_free_String ch line :
  newline_free (String ch line) <-> ch <> newline /\ newline_free line.
Proof.
  unfold newline_free. split.
  - intros H. split.
    + intros ->. apply H. by exists EmptyString, line.
    + intros Hc. by apply H, contains_String.
  - intros [Hch Hl] [Heq|Hc]%contains_char_inv; [by apply Hch | by apply Hl].
Qed.

Lemma newline_free_empty : newline_free EmptyString.
Proof. intros (pre & post & H). by destruct pre. Qed.

Lemma getline_chars_append line rest :
  newline_free line ->
  getline_chars (line +:+ String newline rest) = (line, rest).
Proof.
  induction line as [|ch line IH]; intros Hl.
  - reflexivity.
  - apply newline_free_String in Hl as [Hch Hl]. rewrite append_String. simpl.
    apply Ascii.eqb_neq in Hch. by rewrite Hch, IH.
Qed.

Lemma getline_chars_newline_free file : newline_free (getline_chars file).1.
Proof.
  induction file as [|ch file IH]; simpl; [apply newline_free_empty|].
  destruct (Ascii.eqb_spec ch newline) as [->|Hch]; simpl;
    [apply newline_free_empty|].
  destruct (getline_chars file). simpl in *. by apply newline_free_String.
Qed.

Lemma readFile_loop_newline_free fuel file result :
  Forall newline_free result ->
  Forall newline_free (readFile_loop fuel file result).
Proof.
  revert file result. induction fuel as [|fuel IH]; intros file result Hr;
    simpl; [done|].
  destruct file as [|ch file]; [done|]. cbn [getline].
  pose proof (getline_chars_newline_free (String ch file)) as Hl.
  destruct (getline_chars (String ch file)) as [line unread].
  apply IH. apply Forall_app. split; [done|]. by constructor.
Qed.

Lemma readFile_newline_free path fs : Forall newline_free (readFile path fs).
Proof.
  unfold readFile. destruct (fs !! path); [|done].
  by apply readFile_loop_newline_free.
Qed.

Lemma length_append s t :
  String.length (s +:+ t) = String.length s + String.length t.
Proof. induction s as [|ch s IH]; [done|]. rewrite append_String. simpl. by rewrite IH. Qed.

Lemma stream_bytes_length_cons record rest :
  String.length (stream_bytes (record :: rest))
  = S (String.length record + String.length (stream_bytes rest)).
Proof. simpl. rewrite length_append. simpl. lia. Qed.

Lemma readFile_loop_stream_bytes records fuel result :
  Forall newline_free records ->
  String.length (stream_bytes records) < fuel ->
  readFile_loop fuel (stream_bytes records) result = result ++ records.
Proof.
  intros H. revert fuel result.
  induction H as [|record records Hr _ IH]; intros fuel result Hf.
  - destruct fuel; simpl; by rewrite ?app_nil_r.
  - rewrite stream_bytes_length_cons in Hf.
    destruct fuel as [|fuel]; [lia|]. cbn [readFile_loop].
    assert (getline (stream_bytes (record :: records))
            = Some (record, stream_bytes records)) as ->.
    { cbn [stream_bytes]. rewrite <-(getline_chars_append record) by done.
      by destruct record. }
    rewrite IH by lia. by rewrite <-(assoc_L (++)).
Qed.

(** What the renderer writes is what [readFile] reads back. *)
Lemma readFile_written path records fs :
  Forall newline_free records ->
  readFile path (<[path := stream_bytes records]> fs) = records.
Proof.
  intros H. unfold readFile. rewrite lookup_insert_eq.
  by rewrite readFile_loop_stream_bytes by (done || lia).
Qed.

(** ** The blank line normalizer *)

Lemma deleteEmptyLines_step_middle pre x post :
  deleteEmptyLines_step (length pre) (pre ++ x :: post)
  = pre ++ mark_blank x :: post.
Proof.
  unfold deleteEmptyLines_step, line_at, mark_blank.
  rewrite list_lookup_middle by done. simpl.
  destruct (empty x); simpl.
  - by rewrite insert_app_r_alt, Nat.sub_diag by lia.
  - destruct (all_of_isspace x); [|done].
    by rewrite insert_app_r_alt, Nat.sub_diag by lia.
Qed.

Lemma deleteEmptyLines_loop_range pre mid post :
  deleteEmptyLines_loop (length mid) (length pre) (pre ++ mid ++ post)
  = pre ++ (mark_blank <$> mid) ++ post.
Proof.
  revert pre. induction mid as [|x mid IH]; intros pre; [done|].
  cbn [length deleteEmptyLines_loop]. simpl app.
  rewrite deleteEmptyLines_step_middle.
  replace (S (length pre)) with (length (pre ++ [mark_blank x]))
    by (rewrite length_app; simpl; lia).
  replace (pre ++ mark_blank x :: mid ++ post)
    with ((pre ++ [mark_blank x]) ++ mid ++ post)
    by (by rewrite <-(assoc_L (++))).
  rewrite IH. by rewrite <-(assoc_L (++)).
Qed.

Lemma deleteEmptyLines_range pre mid post :
  deleteEmptyLines (length pre) (length pre + length mid) (pre ++ mid ++ post)
  = pre ++ (mark_blank <$> mid) ++ post.
Proof.
  unfold deleteEmptyLines.
  replace (length pre + length mid - length pre) with (length mid) by lia.
  apply deleteEmptyLines_loop_range.
Qed.

Lemma sort_range_range std_sort comp pre mid post :
  sort_range std_sort (length pre) (length pre + length mid) comp
    (pre ++ mid ++ post)
  = pre ++ std_sort comp mid ++ post.
Proof.
  unfold sort_range.
  replace (length pre + length mid - length pre) with (length mid) by lia.
  rewrite take_app_length, drop_app_length, take_app_length.
  rewrite (assoc_L (++) pre mid post).
  replace (length pre + length mid) with (length (pre ++ mid))
    by (by rewrite length_app).
  by rewrite drop_app_length.
Qed.

Lemma mark_blank_not_blank line :
  mark_blank line <> g_deleted_line -> mark_blank line = line /\ ~ blank line.
Proof.
  unfold mark_blank. rewrite <-all_of_isspace_blank.
  destruct line as [|ch line]; [done|]. cbn [empty orb].
  destruct (all_of_isspace (String ch line)); [done|]. by intros _.
Qed.

Lemma mark_blank_closes line : closes_block (mark_blank line) -> closes_block line.
Proof.
  unfold mark_blank. destruct (empty line || all_of_isspace line); [|done].
  intros H. vm_compute in H. discriminate H.
Qed.

Lemma marker_not_delimiter :
  ~ opens_block g_deleted_line /\ ~ closes_block g_deleted_line.
Proof. split; intros H; vm_compute in H; discriminate H. Qed.

Lemma empty_not_closes : ~ closes_block EmptyString.
Proof. intros H. vm_compute in H. discriminate H. Qed.

(** ** Sorting by insertion *)

Section Insertion.
Variable comp : string -> string -> bool.
Hypothesis comp_swo : strict_weak_ordering comp.
Variable goes_before : string -> string -> bool.
Hypothesis goes_before_true :
  forall x y, goes_before x y = true -> comp y x = false.
Hypothesis goes_before_false :
  forall x y, goes_before x y = false -> comp x y = false.

Lemma comp_negatively_transitive x y z :
  comp x y = false -> comp y z = false -> comp x z = false.
Proof.
  intros Hxy Hyz. destruct (comp x z) eqn:Hxz; [|done].
  destruct (comp y x) eqn:Hyx.
  { by rewrite (swo_transitive _ comp_swo _ _ _ Hyx Hxz) in Hyz. }
  destruct (comp z y) eqn:Hzy.
  { by rewrite (swo_transitive _ comp_swo _ _ _ Hxz Hzy) in Hxy. }
  destruct (swo_equivalence_transitive _ comp_swo x y z); congruence.
Qed.

Lemma insert_by_permutation x l : insert_by goes_before x l ≡ₚ x :: l.
Proof.
  induction l as [|y l IH]; simpl; [done|].
  destruct (goes_before x y); [done|]. by rewrite IH, Permutation_swap.
Qed.

Lemma insert_by_sorted x l :
  sorted_by comp l -> sorted_by comp (insert_by goes_before x l).
Proof.
  unfold sorted_by. induction 1 as [|y l Hl IH Hy]; simpl.
  { repeat constructor. }
  destruct (goes_before x y) eqn:Hg.
  - constructor; [by constructor|]. constructor; [by apply goes_before_true|].
    eapply Forall_impl; [exact Hy|]. intros z Hz. simpl in *.
    eapply comp_negatively_transitive; [exact Hz|]. by apply goes_before_true.
  - constructor; [done|]. rewrite insert_by_permutation.
    constructor; [by apply goes_before_false | done].
Qed.

Lemma foldr_insert_by_permutation l :
  foldr (insert_by goes_before) [] l ≡ₚ l.
Proof.
  induction l as [|x l IH]; simpl; [done|].
  by rewrite insert_by_permutation, IH.
Qed.

Lemma foldr_insert_by_sorted l :
  sorted_by comp (foldr (insert_by goes_before) [] l).
Proof.
  induction l as [|x l IH]; simpl; [constructor|]. by apply insert_by_sorted.
Qed.
End Insertion.

Lemma swo_asymmetric comp x y :
  strict_weak_ordering comp -> comp x y = true -> comp y x = false.
Proof.
  intros Hs Hxy. destruct (comp y x) eqn:Hyx; [|done].
  by rewrite <-(swo_irreflexive _ Hs x), (swo_transitive _ Hs _ _ _ Hxy Hyx).
Qed.

Lemma stable_sort_contract : std_sort_contract stable_sort.
Proof.
  split; intros comp l Hs; unfold stable_sort.
  - apply foldr_insert_by_permutation.
  - apply foldr_insert_by_sorted; [done| |].
    + intros x y. by rewrite negb_true_iff.
    + intros x y. rewrite negb_false_iff. by apply swo_asymmetric.
Qed.

Lemma reversing_sort_contract : std_sort_contract reversing_sort.
Proof.
  split; intros comp l Hs; unfold reversing_sort.
  - apply foldr_insert_by_permutation.
  - apply foldr_insert_by_sorted; [done| |].
    + intros x y. by apply swo_asymmetric.
    + done.
Qed.

(** ** The renderer *)

(** Decides the comparisons of indices in the goal. *)
Ltac decide_bounds :=
  repeat match goal with
         | |- context [(?a <? ?b)%nat] =>
             destruct (Nat.ltb_spec a b); try lia
         | |- context [(?a <=? ?b)%nat] =>
             destruct (Nat.leb_spec a b); try lia
         end.

Lemma write_step_render lines b e i current rest' file :
  drop i lines = current :: rest' ->
  write_step lines b e i file
  = file ++ (if negb (String.eqb current g_deleted_line) then [current] else [])
     ++ match rest' with
        | [] => []
        | next :: _ =>
            if negb (String.eqb current g_deleted_line) &&
               negb (String.eqb next g_deleted_line) &&
               withinIncludes i b e && withinIncludes (i + 1) b e &&
               category_boundary current next
            then [EmptyString] else []
        end.
Proof.
  intros Hd.
  assert (lines !! i = Some current) as Hi.
  { by rewrite <-(Nat.add_0_r i), <-lookup_drop, Hd. }
  assert (lines !! (i + 1) = head rest') as Hn.
  { rewrite <-lookup_drop, Hd. by destruct rest'. }
  assert (length lines = i + S (length rest')) as Hlen.
  { pose proof (f_equal length Hd) as Hl. rewrite length_drop in Hl.
    simpl in Hl. apply lookup_lt_Some in Hi. lia. }
  unfold write_step, line_at, category_boundary. rewrite Hi, Hn, Hlen. simpl.
  destruct (String.eqb current g_deleted_line); simpl.
  { destruct rest'; by rewrite app_nil_r. }
  destruct rest' as [|next rest'']; simpl.
  { replace (i + 1 - 1) with i by lia. by rewrite Nat.eqb_refl. }
  replace (i =? i + S (S (length rest'')) - 1)%nat with false
    by (symmetry; apply Nat.eqb_neq; lia).
  simpl. destruct (String.eqb next g_deleted_line); simpl; [done|].
  destruct (withinIncludes i b e); simpl; [|done].
  destruct (withinIncludes (i + 1) b e); simpl; [|done].
  destruct (_ && _ && _); by rewrite <-?(assoc_L (++)).
Qed.

Lemma write_loop_render lines b e rest : forall i file,
  drop i lines = rest ->
  write_loop (length rest) lines b e i file = file ++ render_from b e i rest.
Proof.
  induction rest as [|current rest' IH]; intros i file Hd; simpl.
  { by rewrite app_nil_r. }
  rewrite (write_step_render _ _ _ _ current rest') by done.
  rewrite IH.
  - by rewrite <-!(assoc_L (++)).
  - replace (S i) with (i + 1) by lia. by rewrite <-drop_drop, Hd.
Qed.

Lemma written_records_render lines :
  written_records lines
  = render_from (findIncludes lines).1 (findIncludes lines).2 0 lines.
Proof.
  unfold written_records. destruct (findIncludes lines) as [b e].
  by rewrite (write_loop_render lines b e lines).
Qed.

(** Out of the block nothing is inserted. *)
Lemma render_from_outside b e i l rest :
  i + length l <= b \/ e <= i ->
  render_from b e i (l ++ rest) = surviving l ++ render_from b e (i + length l) rest.
Proof.
  revert i. induction l as [|x l IH]; intros i Ho.
  { simpl. by rewrite Nat.add_0_r. }
  cbn [app render_from length].
  assert (withinIncludes i b e && withinIncludes (i + 1) b e = false) as Hw.
  { unfold withinIncludes. destruct Ho as [Ho|Ho]; simpl in Ho.
    - apply andb_false_intro1, andb_false_intro1, Nat.leb_gt. lia.
    - apply andb_false_intro1, andb_false_intro2, Nat.ltb_ge. lia. }
  rewrite IH by (simpl in Ho; lia).
  replace (S i + length l) with (i + S (length l)) by lia.
  unfold surviving. rewrite filter_cons.
  destruct (String.eqb_spec x g_deleted_line) as [Hx|Hx]; simpl.
  - rewrite decide_False by (by intros []).
    by destruct (l ++ rest).
  - rewrite decide_True by done.
    destruct (l ++ rest) as [|y ?]; [done|].
    rewrite <-!andb_assoc, (andb_assoc (withinIncludes _ _ _)), Hw.
    simpl. by rewrite andb_false_r.
Qed.

Lemma render_from_block b blk rest : forall i,
  b <= i ->
  render_from b (i + length blk) i (blk ++ rest)
  = render_block blk ++ render_from b (i + length blk) (i + length blk) rest.
Proof.
  induction blk as [|x blk IH]; intros i Hi.
  { simpl. by rewrite Nat.add_0_r. }
  cbn [app render_from render_block length].
  replace (i + S (length blk)) with (S i + length blk) by lia.
  rewrite IH by lia. rewrite <-!(assoc_L (++)). f_equal.
  destruct blk as [|y blk]; simpl.
  - destruct rest as [|z rest]; [done|].
    unfold withinIncludes. decide_bounds. by rewrite !andb_false_r.
  - unfold withinIncludes. decide_bounds. by rewrite !andb_true_r.
Qed.

Lemma surviving_cons_marker l : surviving (g_deleted_line :: l) = surviving l.
Proof. unfold surviving. by rewrite filter_cons, decide_False by (by intros []). Qed.

Lemma surviving_cons x l :
  x <> g_deleted_line -> surviving (x :: l) = x :: surviving l.
Proof. intros Hx. unfold surviving. by rewrite filter_cons, decide_True. Qed.

Lemma surviving_replicate k : surviving (replicate k g_deleted_line) = [].
Proof. induction k as [|k IH]; [done|]. simpl. by rewrite surviving_cons_marker. Qed.

Lemma surviving_id l : Forall (fun x => x <> g_deleted_line) l -> surviving l = l.
Proof.
  induction 1 as [|x l Hx _ IH]; [done|]. by rewrite surviving_cons, IH.
Qed.

Lemma surviving_not_marker l : Forall (fun x => x <> g_deleted_line) (surviving l).
Proof. apply Forall_forall. intros x [Hx _]%list_elem_of_filter. done. Qed.

Lemma surviving_idempotent l : surviving (surviving l) = surviving l.
Proof. apply surviving_id, surviving_not_marker. Qed.

Lemma render_block_markers k : render_block (replicate k g_deleted_line) = [].
Proof.
  induction k as [|k IH]; [done|]. cbn [replicate render_block].
  rewrite IH, String.eqb_refl. by destruct (replicate k g_deleted_line).
Qed.

Lemma render_block_survivors l k :
  Forall (fun x => x <> g_deleted_line) l ->
  render_block (l ++ replicate k g_deleted_line) = separated l.
Proof.
  induction 1 as [|x l Hx Hl IH]; [apply render_block_markers|].
  cbn [app render_block]. rewrite IH. apply String.eqb_neq in Hx. rewrite Hx.
  simpl. destruct Hl as [|y l Hy Hl]; simpl.
  - by destruct k.
  - apply String.eqb_neq in Hy. rewrite Hy. simpl.
    by destruct (category_boundary x y).
Qed.

(** In a sorted range the markers stand at the end. *)
Lemma sorted_markers_last l :
  sorted_by cmp l ->
  exists k, l = surviving l ++ replicate k g_deleted_line.
Proof.
  unfold sorted_by. induction 1 as [|x l Hl [k IH] Hx].
  { by exists 0. }
  destruct (decide (x = g_deleted_line)) as [->|Hne].
  - exists (S (length l)). rewrite surviving_cons_marker.
    assert (l = replicate (length l) g_deleted_line) as Hall.
    { symmetry. apply replicate_as_Forall. split; [done|].
      eapply Forall_impl; [exact Hx|]. intros y Hy. simpl in Hy.
      apply cmp_false_iff in Hy. by destruct Hy as [?|[[] _]]. }
    rewrite Hall at 2. rewrite surviving_replicate. simpl. by f_equal.
  - exists k. rewrite surviving_cons by done. simpl. by rewrite <-IH.
Qed.

Lemma opens_block_not_marker imp : opens_block imp -> imp <> g_deleted_line.
Proof. intros Hi ->. by apply marker_not_delimiter in Hi. Qed.

(** What the renderer writes for a vector with a block. *)
Lemma written_records_shape before imp blk post :
  block_shape before imp blk post ->
  written_records (before ++ imp :: blk ++ post)
  = surviving before ++ imp :: render_block blk ++ surviving post.
Proof.
  intros Hs. rewrite written_records_render, findIncludes_shape by done.
  simpl fst. simpl snd.
  rewrite (render_from_outside _ _ 0 before) by (left; simpl; lia).
  f_equal. simpl plus.
  rewrite (render_from_outside _ _ _ [imp] (blk ++ post)) by (left; simpl; lia).
  rewrite surviving_cons by (apply opens_block_not_marker, Hs).
  simpl. f_equal. replace (length before + 1) with (S (length before)) by lia.
  replace (S (length before + length blk))
    with (S (length before) + length blk) by lia.
  rewrite render_from_block by done. f_equal.
  rewrite <-(app_nil_r post) at 1.
  rewrite render_from_outside by (right; lia). simpl. by rewrite app_nil_r.
Qed.

(** ** The driver *)

Section Formatting.
Variable std_sort : sort_algorithm.
Hypothesis std_sort_ok : std_sort_contract std_sort.

Lemma sorted_block_permutation blk :
  std_sort cmp (mark_blank <$> blk) ≡ₚ mark_blank <$> blk.
Proof. apply std_sort_ok, cmp_strict_weak_ordering. Qed.

Lemma sorted_block_sorted blk : sorted_by cmp (std_sort cmp (mark_blank <$> blk)).
Proof. apply std_sort_ok, cmp_strict_weak_ordering. Qed.

Lemma formatted_lines_shape before imp blk post :
  block_shape before imp blk post ->
  formatted_lines std_sort (before ++ imp :: blk ++ post)
  = before ++ imp :: std_sort cmp (mark_blank <$> blk) ++ post.
Proof.
  intros Hs. unfold formatted_lines. rewrite findIncludes_shape by done.
  replace (before ++ imp :: blk ++ post)
    with ((before ++ [imp]) ++ blk ++ post) by (by rewrite <-(assoc_L (++))).
  replace (S (length before)) with (length (before ++ [imp]))
    by (rewrite length_app; simpl; lia).
  rewrite deleteEmptyLines_range.
  rewrite <-(length_fmap mark_blank blk), sort_range_range.
  by rewrite <-(assoc_L (++)).
Qed.

Lemma sorted_block_shape before imp blk post :
  block_shape before imp blk post ->
  block_shape before imp (std_sort cmp (mark_blank <$> blk)) post.
Proof.
  intros [Hb Hi Hk Hp]. split; [done..| |done].
  rewrite sorted_block_permutation. apply Forall_fmap.
  eapply Forall_impl; [exact Hk|]. intros l Hl Hc. simpl in Hc.
  by apply Hl, mark_blank_closes.
Qed.

(** The records written for a vector with a block. *)
Lemma written_formatted_shape before imp blk post :
  block_shape before imp blk post ->
  written_records (formatted_lines std_sort (before ++ imp :: blk ++ post))
  = surviving before ++ imp :: separated (survivors std_sort blk)
    ++ surviving post.
Proof.
  intros Hs. rewrite formatted_lines_shape by done.
  rewrite written_records_shape by by apply sorted_block_shape.
  destruct (sorted_markers_last _ (sorted_block_sorted blk)) as [k Hk].
  rewrite Hk at 1.
  by rewrite render_block_survivors by apply surviving_not_marker.
Qed.

Lemma formatFile_done path fs :
  (findIncludes (readFile path fs)).1 < (findIncludes (readFile path fs)).2 ->
  formatFile std_sort path fs
  = ({| m_path := path; m_result_message := "done" |},
     <[path := stream_bytes
                 (written_records (formatted_lines std_sort (readFile path fs)))]>
       fs).
Proof.
  intros Hlt. unfold formatFile, formatted_lines,
    writeWithoutDeletedLinesAndWithSeparatedGroups.
  destruct (readFile path fs) as [|l lines] eqn:Hr; [simpl in Hlt; lia|].
  rewrite bool_decide_eq_false_2 by done.
  destruct (findIncludes (l :: lines)) as [b e]. simpl in Hlt.
  by rewrite (proj2 (Nat.leb_gt e b)) by done.
Qed.
End Formatting.

Lemma block_shape_of_done lines :
  (findIncludes lines).1 < (findIncludes lines).2 ->
  exists before imp blk post,
    lines = before ++ imp :: blk ++ post /\
    block_shape before imp blk post /\ blk <> [] /\
    findIncludes lines = (S (length before), S (length before) + length blk).
Proof.
  intros Hlt. destruct (block_shape_exists lines)
    as [H|(before & imp & blk & post & -> & Hs)].
  { rewrite findIncludes_no_open in Hlt by done. simpl in Hlt. lia. }
  exists before, imp, blk, post. rewrite findIncludes_shape in * by done.
  split; [done|]. split; [done|]. split; [|done].
  intros ->. simpl in Hlt. lia.
Qed.

Lemma formatFile_message std_sort path fs :
  m_result_message (formatFile std_sort path fs).1 = "done" ->
  (findIncludes (readFile path fs)).1 < (findIncludes (readFile path fs)).2.
Proof.
  unfold formatFile. case_bool_decide; [done|].
  destruct (findIncludes (readFile path fs)) as [b e]. simpl.
  destruct (Nat.leb_spec e b); [done|]. by intros _.
Qed.

Lemma lookup_block (before : list string) imp (blk post : list string) i x :
  S (length before) <= i < S (length before) + length blk ->
  (before ++ imp :: blk ++ post) !! i = Some x ->
  blk !! (i - S (length before)) = Some x.
Proof.
  intros Hi Hl.
  replace (before ++ imp :: blk ++ post)
    with ((before ++ [imp]) ++ blk ++ post) in Hl
    by (by rewrite <-(assoc_L (++))).
  rewrite lookup_app_r in Hl by (rewrite length_app; simpl; lia).
  rewrite length_app in Hl. simpl in Hl.
  rewrite lookup_app_l in Hl by lia.
  by replace (i - S (length before)) with (i - (length before + 1)) by lia.
Qed.

Lemma cmp_false_in_order x y :
  x <> g_deleted_line -> y <> g_deleted_line ->
  cmp y x = false -> in_order x y.
Proof.
  intros Hx Hy [?|[_ H]]%cmp_false_iff; [done|]. split.
  - intros Hne. by destruct H as [?|[? _]].
  - intros Heq. rewrite <-!path_key_import_path_key.
    destruct H as [H|[_ ?]]; [|done]. rewrite Heq in H. lia.
Qed.

(** In a list whose filtered part is sorted, two elements that pass the
    filter are related when the first stands before the second. *)
Lemma filter_sorted_lookup {A} (R : relation A) (P : A -> Prop)
  `{!forall x, Decision (P x)} (l : list A) i j x y :
  StronglySorted R (filter P l) ->
  i < j -> l !! i = Some x -> l !! j = Some y -> P x -> P y -> R x y.
Proof.
  intros Hs Hij Hi Hj Hx Hy.
  rewrite <-(take_drop_middle l i x Hi) in Hs, Hj.
  rewrite lookup_app_r in Hj by (rewrite length_take; lia).
  rewrite length_take_le in Hj by (apply lookup_lt_Some in Hi; lia).
  destruct (j - i) as [|n] eqn:Hn; [lia|]. simpl in Hj.
  rewrite filter_app, filter_cons_True in Hs by done.
  apply StronglySorted_app_1_r, StronglySorted_cons in Hs as [Hs _].
  rewrite Forall_forall in Hs. apply Hs, list_elem_of_filter.
  split; [done|]. by eapply list_elem_of_lookup_2.
Qed.

Lemma sorted_by_lookup comp l i j x y :
  sorted_by comp l -> i < j -> l !! i = Some x -> l !! j = Some y ->
  comp y x = false.
Proof.
  unfold sorted_by. intros Hs Hij Hi Hj.
  rewrite <-(take_drop_middle l i x Hi) in Hs, Hj.
  rewrite lookup_app_r in Hj by (rewrite length_take; lia).
  rewrite length_take_le in Hj by (apply lookup_lt_Some in Hi; lia).
  destruct (j - i) as [|n] eqn:Hn; [lia|]. simpl in Hj.
  apply StronglySorted_app_1_r, StronglySorted_cons in Hs as [Hs _].
  rewrite Forall_forall in Hs. by eapply Hs, list_elem_of_lookup_2.
Qed.

(** ** Separators *)

Lemma blank_empty : blank EmptyString.
Proof. reflexivity. Qed.

Lemma elem_of_separated x l : x ∈ separated l -> x = EmptyString \/ x ∈ l.
Proof.
  induction l as [|a l IH]; [by intros ?%elem_of_nil|].
  cbn [separated]. destruct l as [|b l].
  - intros ->%list_elem_of_singleton. right. by left.
  - assert (x ∈ separated (b :: l) -> x = EmptyString \/ x ∈ a :: b :: l) as IH'.
    { intros [?|?]%IH; [by left | right; by right]. }
    destruct (category_boundary a b).
    + intros [->|[->|H]%elem_of_cons]%elem_of_cons.
      * right. by left.
      * by left.
      * by apply IH'.
    + intros [->|H]%elem_of_cons.
      * right. by left.
      * by apply IH'.
Qed.

Lemma separated_cons x l : exists tl, separated (x :: l) = x :: tl.
Proof.
  cbn [separated]. destruct l as [|y l]; [by exists []|].
  destruct (category_boundary x y); eauto.
Qed.

Lemma separated_nil_inv l : separated l = [] -> l = [].
Proof.
  destruct l as [|x l]; [done|].
  destruct (separated_cons x l) as [tl ->]. done.
Qed.

Lemma filter_separated l :
  Forall (fun x => x <> EmptyString) l ->
  filter (fun x => x <> EmptyString) (separated l) = l.
Proof.
  induction 1 as [|x l Hx Hl IH]; [done|]. cbn [separated].
  destruct l as [|y l].
  { by rewrite filter_cons_True. }
  destruct (category_boundary x y).
  - rewrite filter_cons_True, filter_cons_False by (done || by intros []).
    by rewrite IH.
  - by rewrite filter_cons_True, IH.
Qed.

Lemma separated_at_boundaries l :
  Forall (fun x => ~ blank x) l -> separators_at_boundaries (separated l).
Proof.
  induction 1 as [|x l Hx Hl [IH1 IH2]]; [by split; intros []|].
  cbn [separated]. destruct l as [|y l].
  { split.
    - intros [|k] l' [= <-]; done.
    - intros [|k] x' y'; done. }
  apply Forall_cons in Hl as Hy. destruct Hy as [Hy _].
  destruct (separated_cons y l) as [tl Htl]. rewrite Htl in *.
  destruct (category_boundary x y) eqn:Hb; split.
  - intros [|[|k]] l' Hl' Hbl; simpl in Hl'.
    + by injection Hl' as <-.
    + injection Hl' as <-. split; [done|]. exists x, y. by repeat split.
    + destruct (IH1 k l' Hl' Hbl) as [-> (x' & y' & Hk & Hx' & Hy' & ?)].
      split; [done|]. exists x', y'. split; [lia|].
      split; [by destruct k as [|k]; [lia|]; simpl in *; rewrite Nat.sub_0_r in *|].
      done.
  - intros [|[|k]] x' y' Hx' Hy' Hbx Hby; simpl in *.
    + injection Hy' as <-. by destruct Hby.
    + injection Hx' as <-. by destruct Hbx.
    + by apply (IH2 k x' y').
  - intros [|k] l' Hl' Hbl; simpl in Hl'.
    + by injection Hl' as <-.
    + destruct (IH1 k l' Hl' Hbl) as [-> (x' & y' & Hk & Hx' & Hy' & ?)].
      split; [done|]. exists x', y'. split; [lia|].
      split; [by destruct k as [|k]; [lia|]; simpl in *; rewrite Nat.sub_0_r in *|].
      done.
  - intros [|k] x' y' Hx' Hy' Hbx Hby; simpl in *.
    + injection Hx' as <-. by injection Hy' as <-.
    + by apply (IH2 k x' y').
Qed.

(** ** The formatted file *)

Lemma surviving_shape_post post :
  match post with [] => True | c :: _ => closes_block c end ->
  match surviving post with [] => True | c :: _ => closes_block c end.
Proof.
  destruct post as [|c post]; [done|]. intros Hc.
  rewrite surviving_cons; [done|]. intros ->. by apply marker_not_delimiter in Hc.
Qed.

Lemma surviving_Forall (P : string -> Prop) l : Forall P l -> Forall P (surviving l).
Proof.
  rewrite !Forall_forall. intros H x [_ Hx]%list_elem_of_filter. by apply H.
Qed.

Lemma not_blank_not_empty x : ~ blank x -> x <> EmptyString.
Proof. intros Hx ->. by apply Hx. Qed.

Section Formatted.
Variable std_sort : sort_algorithm.
Hypothesis std_sort_ok : std_sort_contract std_sort.

Lemma elem_of_survivors x blk :
  x ∈ survivors std_sort blk -> x ∈ blk /\ ~ blank x /\ x <> g_deleted_line.
Proof.
  intros [Hx Hin]%list_elem_of_filter.
  rewrite (sorted_block_permutation std_sort std_sort_ok) in Hin.
  apply list_elem_of_fmap in Hin as (l & -> & Hl).
  destruct (mark_blank_not_blank l Hx) as [Heq Hb]. rewrite Heq in *. done.
Qed.

Lemma survivors_not_blank blk : Forall (fun x => ~ blank x) (survivors std_sort blk).
Proof. apply Forall_forall. by intros x (_ & ? & _)%elem_of_survivors. Qed.

Lemma survivors_sorted blk : sorted_by cmp (survivors std_sort blk).
Proof.
  pose proof (sorted_block_sorted std_sort std_sort_ok blk) as Hs.
  destruct (sorted_markers_last _ Hs) as [k Hk]. rewrite Hk in Hs.
  by apply StronglySorted_app_1_l in Hs.
Qed.

Lemma survivors_permutation blk :
  survivors std_sort blk ≡ₚ surviving (mark_blank <$> blk).
Proof.
  unfold survivors, surviving.
  by rewrite (sorted_block_permutation std_sort std_sort_ok).
Qed.

(** The records written keep the shape of the vector. *)
Lemma written_shape before imp blk post :
  block_shape before imp blk post ->
  block_shape (surviving before) imp (separated (survivors std_sort blk))
    (surviving post).
Proof.
  intros [Hb Hi Hk Hp]. split; [by apply surviving_Forall | done | |].
  - apply Forall_forall. intros x [->|Hx]%elem_of_separated.
    + apply empty_not_closes.
    + apply elem_of_survivors in Hx as [Hx _].
      rewrite Forall_forall in Hk. by apply Hk.
  - by apply surviving_shape_post.
Qed.

Lemma written_newline_free lines :
  Forall newline_free lines ->
  (findIncludes lines).1 < (findIncludes lines).2 ->
  Forall newline_free (written_records (formatted_lines std_sort lines)).
Proof.
  intros Hn Hlt.
  destruct (block_shape_of_done lines Hlt)
    as (before & imp & blk & post & -> & Hs & _ & _).
  rewrite (written_formatted_shape std_sort std_sort_ok) by done.
  apply Forall_app in Hn as [Hn1 Hn2].
  apply Forall_cons in Hn2 as [Hn2 Hn3].
  apply Forall_app in Hn3 as [Hn3 Hn4].
  apply Forall_app. split; [by apply surviving_Forall|].
  constructor; [done|]. apply Forall_app. split; [|by apply surviving_Forall].
  apply Forall_forall. intros x [->|Hx]%elem_of_separated.
  - apply newline_free_empty.
  - apply elem_of_survivors in Hx as [Hx _].
    rewrite Forall_forall in Hn3. by apply Hn3.
Qed.

(** The file after a run that reports [done], as [readFile] sees it. *)
Lemma readFile_formatted path fs :
  (findIncludes (readFile path fs)).1 < (findIncludes (readFile path fs)).2 ->
  readFile path (formatFile std_sort path fs).2
  = written_records (formatted_lines std_sort (readFile path fs)).
Proof.
  intros Hlt. rewrite (formatFile_done std_sort) by done. simpl.
  apply readFile_written, written_newline_free; [|done].
  apply readFile_newline_free.
Qed.
End Formatted.

(** ** Order and bounds of the formatted block *)

Section SortedBlock.
Variable std_sort : sort_algorithm.
Hypothesis std_sort_ok : std_sort_contract std_sort.

(** C1. When [formatFile] reports [done], two lines of the sorted block
    that are not the marker stand in order: the one in front has the
    category of lower rank or, in one category, a key that is not above
    the other key. The same holds for the lines of the block in the file
    written, the separators aside. *)
Theorem formatFile_block_in_order (path : string) (fs : FileSystem) :
  m_result_message (formatFile std_sort path fs).1 = "done" ->
  (let lines := readFile path fs in
   let sorted := formatted_lines std_sort lines in
   forall i j x y,
     (findIncludes lines).1 <= i -> i < j -> j < (findIncludes lines).2 ->
     sorted !! i = Some x -> sorted !! j = Some y ->
     x <> g_deleted_line -> y <> g_deleted_line -> in_order x y) /\
  (let written := readFile path (formatFile std_sort path fs).2 in
   forall i j x y,
     (findIncludes written).1 <= i -> i < j -> j < (findIncludes written).2 ->
     written !! i = Some x -> written !! j = Some y ->
     x <> EmptyString -> y <> EmptyString -> in_order x y).
Proof.
  intros Hlt%formatFile_message. split.
  - intros lines sorted. subst lines sorted.
    destruct (block_shape_of_done _ Hlt)
      as (before & imp & blk & post & -> & Hs & _ & ->).
    rewrite (formatted_lines_shape std_sort) by done. simpl.
    intros i j x y Hi Hij Hj Hx Hy Hdx Hdy.
    pose proof (sorted_block_permutation std_sort std_sort_ok blk) as Hp.
    apply Permutation_length in Hp. rewrite length_fmap in Hp.
    apply lookup_block in Hx; [|lia]. apply lookup_block in Hy; [|lia].
    apply cmp_false_in_order; [done..|].
    eapply (sorted_by_lookup cmp); [|  |exact Hx|exact Hy].
    + by apply sorted_block_sorted.
    + lia.
  - intros written. subst written.
    rewrite (readFile_formatted std_sort std_sort_ok) by done.
    destruct (block_shape_of_done _ Hlt)
      as (before & imp & blk & post & -> & Hs & _ & _).
    rewrite (written_formatted_shape std_sort std_sort_ok) by done.
    rewrite findIncludes_shape by by apply written_shape.
    simpl. intros i j x y Hi Hij Hj Hx Hy Hex Hey.
    apply lookup_block in Hx; [|lia]. apply lookup_block in Hy; [|lia].
    assert (forall z, z ∈ separated (survivors std_sort blk) ->
              z <> EmptyString -> z <> g_deleted_line) as Hd.
    { intros z [?|Hz]%elem_of_separated ?; [done|].
      by apply (elem_of_survivors std_sort std_sort_ok) in Hz as (_ & _ & ?). }
    apply cmp_false_in_order.
    { eapply Hd; [by eapply list_elem_of_lookup_2|done]. }
    { eapply Hd; [by eapply list_elem_of_lookup_2|done]. }
    eapply (filter_sorted_lookup (fun a b => cmp b a = false)
              (fun z => z <> EmptyString)); [| |exact Hx|exact Hy|done|done].
    + rewrite filter_separated; [by apply survivors_sorted|].
      eapply Forall_impl; [by apply survivors_not_blank|].
      intros z. apply not_blank_not_empty.
    + lia.
Qed.

Lemma deleteEmptyLines_shape before imp blk post :
  block_shape before imp blk post ->
  deleteEmptyLines (S (length before)) (S (length before) + length blk)
    (before ++ imp :: blk ++ post)
  = before ++ imp :: (mark_blank <$> blk) ++ post /\
  block_shape before imp (mark_blank <$> blk) post.
Proof.
  intros [Hb Hi Hk Hp]. split.
  - replace (before ++ imp :: blk ++ post)
      with ((before ++ [imp]) ++ blk ++ post) by (by rewrite <-(assoc_L (++))).
    replace (S (length before)) with (length (before ++ [imp]))
      by (rewrite length_app; simpl; lia).
    rewrite deleteEmptyLines_range. by rewrite <-(assoc_L (++)).
  - split; [done..| |done]. apply Forall_fmap.
    eapply Forall_impl; [exact Hk|]. intros l Hl Hc. by apply Hl, mark_blank_closes.
Qed.

Lemma std_sort_nil : std_sort cmp [] = [].
Proof.
  apply Permutation_nil_r, (std_sort_permutation _ std_sort_ok),
    cmp_strict_weak_ordering.
Qed.

(** C9. The locator finds the same bounds after the blank lines of the range
    are marked and after the range is sorted; no line of the sorted range
    is a closing delimiter, and the marker is not a delimiter. *)
Theorem findIncludes_invariant (lines : list string) :
  let begin := (findIncludes lines).1 in
  let end_ := (findIncludes lines).2 in
  findIncludes (deleteEmptyLines begin end_ lines) = findIncludes lines /\
  findIncludes (formatted_lines std_sort lines) = findIncludes lines /\
  (forall i l, begin <= i < end_ ->
     formatted_lines std_sort lines !! i = Some l -> ~ closes_block l) /\
  ~ opens_block g_deleted_line /\ ~ closes_block g_deleted_line.
Proof.
  intros begin end_. subst begin end_.
  split; [|split; [|split; [|apply marker_not_delimiter]]].
  - destruct (block_shape_exists lines)
      as [H|(before & imp & blk & post & -> & Hs)].
    + rewrite (findIncludes_no_open lines) by done. simpl.
      unfold deleteEmptyLines. rewrite Nat.sub_diag.
      cbn [deleteEmptyLines_loop]. by apply findIncludes_no_open.
    + rewrite (findIncludes_shape before imp blk post) by done.
      destruct (deleteEmptyLines_shape _ _ _ _ Hs) as [Heq Hs'].
      cbn [fst snd]. rewrite Heq, findIncludes_shape by done.
      by rewrite length_fmap.
  - destruct (block_shape_exists lines)
      as [H|(before & imp & blk & post & -> & Hs)].
    + unfold formatted_lines. rewrite (findIncludes_no_open lines) by done.
      unfold deleteEmptyLines, sort_range. rewrite Nat.sub_diag.
      cbn [deleteEmptyLines_loop].
      rewrite take_0, firstn_all, drop_all, std_sort_nil, !app_nil_r.
      by apply findIncludes_no_open.
    + rewrite (formatted_lines_shape std_sort) by done.
      rewrite !findIncludes_shape
        by (done || by apply (sorted_block_shape std_sort)).
      pose proof (sorted_block_permutation std_sort std_sort_ok blk) as Hp.
      apply Permutation_length in Hp. rewrite length_fmap in Hp.
      by rewrite Hp.
  - destruct (block_shape_exists lines)
      as [H|(before & imp & blk & post & -> & Hs)].
    + rewrite (findIncludes_no_open lines) by done. simpl. intros; lia.
    + rewrite (formatted_lines_shape std_sort),
        (findIncludes_shape before imp blk post) by done.
      cbn [fst snd]. intros i l Hi Hl.
      pose proof (sorted_block_permutation std_sort std_sort_ok blk) as Hp.
      apply Permutation_length in Hp. rewrite length_fmap in Hp.
      apply lookup_block in Hl; [|lia].
      apply (sorted_block_shape std_sort std_sort_ok) in Hs as [_ _ Hk _].
      rewrite Forall_forall in Hk. by eapply Hk, list_elem_of_lookup_2.
Qed.
End SortedBlock.

Lemma located_block_shape before imp blk post :
  block_shape before imp blk post ->
  located_block (before ++ imp :: blk ++ post) = blk.
Proof.
  intros Hs. unfold located_block. rewrite findIncludes_shape by done.
  replace (S (length before) + length blk - S (length before))
    with (length blk) by lia.
  replace (before ++ imp :: blk ++ post)
    with ((before ++ [imp]) ++ blk ++ post) by (by rewrite <-(assoc_L (++))).
  replace (S (length before)) with (length (before ++ [imp]))
    by (rewrite length_app; simpl; lia).
  by rewrite drop_app_length, take_app_length.
Qed.

Lemma take_drop_shape (before : list string) imp blk post :
  take (S (length before)) (before ++ imp :: blk ++ post) = before ++ [imp] /\
  drop (S (length before) + length blk) (before ++ imp :: blk ++ post) = post.
Proof.
  replace (before ++ imp :: blk ++ post)
    with ((before ++ [imp]) ++ blk ++ post) by (by rewrite <-(assoc_L (++))).
  replace (S (length before)) with (length (before ++ [imp]))
    by (rewrite length_app; simpl; lia).
  split; [by rewrite take_app_length|].
  rewrite (assoc_L (++)), <-length_app. by rewrite drop_app_length.
Qed.

Lemma surviving_app l1 l2 : surviving (l1 ++ l2) = surviving l1 ++ surviving l2.
Proof. apply filter_app. Qed.

Section Output.
Variable std_sort : sort_algorithm.
Hypothesis std_sort_ok : std_sort_contract std_sort.

(** C2. In the file written by a run that reports [done], the block is the
    sequence of the surviving lines with one empty line between two
    neighbours whose categories differ and are not [None]: every blank
    line of the block is such a separator, two neighbours that are not
    blank are not at such a boundary, and without the separators the block
    is the sorted block without its marked lines. *)
Theorem formatFile_separators (path : string) (fs : FileSystem) :
  m_result_message (formatFile std_sort path fs).1 = "done" ->
  let block := located_block (readFile path (formatFile std_sort path fs).2) in
  let kept := survivors std_sort (located_block (readFile path fs)) in
  block = separated kept /\
  separators_at_boundaries block /\
  filter (fun l => l <> EmptyString) block = kept /\
  Forall (fun l => ~ blank l) kept.
Proof.
  intros Hlt%formatFile_message block kept. subst block kept.
  rewrite (readFile_formatted std_sort std_sort_ok) by done.
  destruct (block_shape_of_done _ Hlt)
    as (before & imp & blk & post & -> & Hs & _ & _).
  rewrite (written_formatted_shape std_sort std_sort_ok) by done.
  rewrite !located_block_shape by (done || by apply written_shape).
  pose proof (survivors_not_blank std_sort std_sort_ok blk) as Hnb.
  split; [done|]. split; [by apply separated_at_boundaries|].
  split; [|done]. apply filter_separated.
  eapply Forall_impl; [exact Hnb|]. intros z. apply not_blank_not_empty.
Qed.

(** C4, as the program has it. Out of the block the renderer drops the
    lines that are the marker and writes the other lines as they are, in
    their order: what stands in the file written up to its block, and from
    the end of its block on, is what stood there in the input without the
    lines equal to the marker; so nothing changes out of the block when no
    line there is the marker. *)
Theorem formatFile_outside_block (path : string) (fs : FileSystem) :
  m_result_message (formatFile std_sort path fs).1 = "done" ->
  let lines := readFile path fs in
  let written := readFile path (formatFile std_sort path fs).2 in
  let before := take (findIncludes lines).1 lines in
  let after := drop (findIncludes lines).2 lines in
  take (findIncludes written).1 written = surviving before /\
  drop (findIncludes written).2 written = surviving after /\
  (Forall (fun l => l <> g_deleted_line) (before ++ after) ->
   take (findIncludes written).1 written = before /\
   drop (findIncludes written).2 written = after).
Proof.
  intros Hlt%formatFile_message lines written before' after.
  subst lines written before' after.
  rewrite (readFile_formatted std_sort std_sort_ok) by done.
  destruct (block_shape_of_done _ Hlt)
    as (before & imp & blk & post & -> & Hs & _ & _).
  rewrite (written_formatted_shape std_sort std_sort_ok) by done.
  rewrite !findIncludes_shape by (done || by apply written_shape).
  cbn [fst snd].
  destruct (take_drop_shape before imp blk post) as [-> ->].
  destruct (take_drop_shape (surviving before) imp
              (separated (survivors std_sort blk)) (surviving post))
    as [-> ->].
  assert (surviving (before ++ [imp]) = surviving before ++ [imp]) as Hb.
  { rewrite surviving_app. f_equal.
    apply surviving_cons, opens_block_not_marker, Hs. }
  split; [done|]. split; [done|].
  intros [Hb' Hp]%Forall_app. rewrite <-Hb.
  by rewrite !surviving_id.
Qed.
End Output.

(** ** Running twice *)

Lemma mark_blank_empty : mark_blank EmptyString = g_deleted_line.
Proof. reflexivity. Qed.

Lemma mark_blank_id x : ~ blank x -> mark_blank x = x.
Proof.
  intros Hx. unfold mark_blank. rewrite <-all_of_isspace_blank in Hx.
  destruct x as [|ch x]; [done|]. cbn [empty orb].
  by destruct (all_of_isspace (String ch x)).
Qed.

(** Marking the separators of a rendered block gives back its lines. *)
Lemma surviving_mark_separated l :
  Forall (fun x => ~ blank x /\ x <> g_deleted_line) l ->
  surviving (mark_blank <$> separated l) = l.
Proof.
  induction 1 as [|x l [Hb Hd] Hl IH]; [done|]. cbn [separated].
  destruct l as [|y l].
  { cbn [fmap list_fmap]. by rewrite mark_blank_id, surviving_cons. }
  destruct (category_boundary x y); cbn [fmap list_fmap] in *.
  - rewrite mark_blank_id, mark_blank_empty by done.
    by rewrite surviving_cons, surviving_cons_marker, IH.
  - by rewrite mark_blank_id, surviving_cons, IH.
Qed.

Lemma cmp_equivalent_key x y :
  x <> g_deleted_line -> y <> g_deleted_line ->
  cmp x y = false -> cmp y x = false ->
  moduleType x = moduleType y /\ path_key x = path_key y.
Proof.
  intros Hx Hy [?|[_ H1]]%cmp_false_iff [?|[_ H2]]%cmp_false_iff; try done.
  destruct H1 as [H1|[Ht1 Hk1]], H2 as [H2|[Ht2 Hk2]]; try lia.
  - rewrite Ht2 in H1. lia.
  - rewrite Ht1 in H2. lia.
  - split; [done|]. by apply (anti_symm String.le).
Qed.

Section Twice.
Variable std_sort : sort_algorithm.
Hypothesis std_sort_ok : std_sort_contract std_sort.

(** Sorting a rendered block once more changes nothing, when lines that
    are equivalent under [cmp] are equal. *)
Lemma survivors_separated blk :
  tie_free blk ->
  survivors std_sort (separated (survivors std_sort blk))
  = survivors std_sort blk.
Proof.
  intros Htf.
  apply (StronglySorted_unique_strong (fun x y => cmp y x = false)).
  - intros x y Hx Hy Hxy Hyx.
    apply (elem_of_survivors std_sort std_sort_ok) in Hy as (Hy & Hby & Hdy).
    apply (elem_of_survivors std_sort std_sort_ok) in Hx as (Hx & Hbx & Hdx).
    apply elem_of_separated in Hx as [Hx|Hx].
    { destruct Hbx. by rewrite Hx. }
    apply (elem_of_survivors std_sort std_sort_ok) in Hx as (Hx & _ & _).
    destruct (cmp_equivalent_key x y) as [Ht Hk]; [done..|].
    by apply Htf.
  - by apply survivors_sorted.
  - by apply survivors_sorted.
  - rewrite (survivors_permutation std_sort std_sort_ok).
    rewrite surviving_mark_separated; [done|].
    apply Forall_forall.
    by intros x (_ & ? & ?)%(elem_of_survivors std_sort std_sort_ok).
Qed.

(** C3, as the program has it. When no two different lines of the block
    that are written are equivalent under [cmp], the file left by a run of
    [formatFile] is left as it is by the next run. *)
Theorem formatFile_twice (path : string) (fs : FileSystem) :
  tie_free (located_block (readFile path fs)) ->
  (formatFile std_sort path (formatFile std_sort path fs).2).2
  = (formatFile std_sort path fs).2.
Proof.
  intros Htf.
  destruct (decide (readFile path fs = [])) as [He|Hne].
  { rewrite (formatFile_unreadable std_sort path fs) by done. cbn [snd].
    by rewrite (formatFile_unreadable std_sort path fs). }
  destruct (decide ((findIncludes (readFile path fs)).1
                    < (findIncludes (readFile path fs)).2)) as [Hlt|Hge].
  2: { rewrite (formatFile_no_block std_sort path fs) by (done || lia).
       cbn [snd].
       by rewrite (formatFile_no_block std_sort path fs) by (done || lia). }
  pose proof (readFile_formatted std_sort std_sort_ok path fs Hlt) as Hread.
  destruct (block_shape_of_done _ Hlt)
    as (before & imp & blk & post & Hlines & Hs & _ & _).
  rewrite Hlines in Htf, Hread.
  rewrite located_block_shape in Htf by done.
  rewrite (written_formatted_shape std_sort std_sort_ok) in Hread by done.
  pose proof (written_shape std_sort std_sort_ok _ _ _ _ Hs) as Hs'.
  set (fs1 := (formatFile std_sort path fs).2) in *.
  destruct (decide (separated (survivors std_sort blk) = [])) as [Hnil|Hsep].
  - rewrite (formatFile_no_block std_sort path fs1); [done| |].
    + rewrite Hread. by destruct (surviving before).
    + rewrite Hread, findIncludes_shape, Hnil by done. simpl. lia.
  - assert ((findIncludes (readFile path fs1)).1
            < (findIncludes (readFile path fs1)).2) as Hlt'.
    { rewrite Hread, findIncludes_shape by done. simpl.
      destruct (separated (survivors std_sort blk)); [done|]. simpl. lia. }
    rewrite (formatFile_done std_sort path fs1) by done. cbn [snd].
    rewrite Hread, (written_formatted_shape std_sort std_sort_ok) by done.
    rewrite !surviving_idempotent, survivors_separated by done.
    subst fs1. rewrite (formatFile_done std_sort path fs) by done. cbn [snd].
    rewrite insert_insert_eq. do 2 f_equal.
    by rewrite Hlines, (written_formatted_shape std_sort std_sort_ok).
Qed.
End Twice.

Lemma tie_freeb_tie_free l : tie_freeb l = true -> tie_free l.
Proof.
  unfold tie_freeb, tie_free. rewrite forallb_forall.
  intros H x y Hx Hy Hbx Hby Hdx Hdy Ht Hk.
  apply list_elem_of_In in Hx, Hy. specialize (H x Hx).
  rewrite forallb_forall in H. specialize (H y Hy).
  rewrite <-all_of_isspace_blank in Hbx, Hby.
  apply not_true_is_false in Hbx, Hby.
  apply String.eqb_neq in Hdx, Hdy. rewrite Hbx, Hby, Hdx, Hdy, Ht, Hk in H.
  unfold ModuleType.neqb in H. rewrite Nat.eqb_refl, String.eqb_refl in H.
  by apply String.eqb_eq.
Qed.

(** ** The batch *)

Section Batch.
Variable std_sort : sort_algorithm.
Variable is_directory : string -> option bool.
Variable recursive_directory_iterator : string -> Walk.
Variable extension : string -> string.

Lemma format_entries_paths entries : forall result fs,
  m_path <$> (format_entries std_sort extension entries result fs).1
  = (m_path <$> result) ++ filter (fun p => extension p = ".go") entries.
Proof.
  induction entries as [|p entries IH]; intros result fs; simpl.
  { by rewrite app_nil_r. }
  destruct (String.eqb_spec (extension p) ".go") as [He|He].
  - destruct (formatFile std_sort p fs) as [r fs'] eqn:Hf.
    rewrite IH, fmap_app, filter_cons_True, <-(assoc_L (++)) by done.
    simpl. do 2 f_equal. unfold formatFile in Hf.
    case_bool_decide; [by injection Hf as <- _|].
    destruct (findIncludes (readFile p fs)) as [b e].
    by destruct (e <=? b)%nat; injection Hf as <- _.
  - by rewrite IH, filter_cons_False.
Qed.

(** C7. A file that yields no line is reported as unreadable and keeps its
    bytes; a file in which no block is found is reported as having no
    includes and keeps its bytes; in both cases the loop goes on with the
    entries left as if the file had not been there, the report aside, and
    every entry with the extension gets its report: [main] prints one report
    for each of them when the traversal of the directory comes to its end,
    and none when the traversal throws. *)
Theorem per_file_errors_are_local (path : string) (fs : FileSystem) :
  let lines := readFile path fs in
  (lines = [] ->
   formatFile std_sort path fs
   = ({| m_path := path; m_result_message := "failed to read from file" |},
      fs)) /\
  (lines <> [] -> (findIncludes lines).2 <= (findIncludes lines).1 ->
   formatFile std_sort path fs
   = ({| m_path := path; m_result_message := "no includes found" |}, fs)) /\
  (forall entries result,
     extension path = ".go" ->
     lines = [] \/ (findIncludes lines).2 <= (findIncludes lines).1 ->
     format_entries std_sort extension (path :: entries) result fs
     = format_entries std_sort extension entries
         (result ++ [(formatFile std_sort path fs).1]) fs) /\
  (forall entries result,
     m_path <$> (format_entries std_sort extension entries result fs).1
     = (m_path <$> result) ++ filter (fun p => extension p = ".go") entries) /\
  (forall dir,
     is_directory dir = Some true ->
     length (std_out (main std_sort is_directory recursive_directory_iterator
                        extension ["order_includes"; dir] fs))
     = if walk_throws (recursive_directory_iterator dir) then 0
       else length (filter (fun p => extension p = ".go")
                      (walk_entries (recursive_directory_iterator dir)))).
Proof.
  intros lines. subst lines.
  split; [apply formatFile_unreadable|].
  split; [apply formatFile_no_block|].
  split; [|split; [intros; apply format_entries_paths|]].
  - intros entries result He Herr. cbn [format_entries].
    apply String.eqb_eq in He. rewrite He.
    destruct (decide (readFile path fs = [])) as [Hnil|Hne].
    + by rewrite (formatFile_unreadable std_sort path fs).
    + destruct Herr as [?|Hle]; [done|].
      by rewrite (formatFile_no_block std_sort path fs).
  - intros dir Hd. unfold main. cbn [length Nat.eqb negb].
    change (line_at ["order_includes"; dir] 1) with dir. rewrite Hd.
    pose proof (format_entries_paths
                  (walk_entries (recursive_directory_iterator dir)) [] fs)
      as Hp.
    destruct (format_entries _ _ _ _ _) as [result fs'].
    apply (f_equal length) in Hp. rewrite length_fmap in Hp. simpl in Hp.
    destruct (walk_throws (recursive_directory_iterator dir)); [done|].
    case_bool_decide; simpl; by rewrite length_fmap.
Qed.
End Batch.

(** ** The properties at sample files *)

Lemma formatFile_block_in_order_witness :
  (formatted_lines stable_sort (readFile "a.go" aliased_imports) !! 1
   = Some (import_line "z " "fmt") /\
   formatted_lines stable_sort (readFile "a.go" aliased_imports) !! 2
   = Some (import_line "a " "os") /\
   moduleType (import_line "z " "fmt") = moduleType (import_line "a " "os") /\
   import_path_key (import_line "z " "fmt")
   = String dquote ("fmt" +:+ String dquote EmptyString) /\
   import_path_key (import_line "a " "os")
   = String dquote ("os" +:+ String dquote EmptyString) /\
   in_order (import_line "z " "fmt") (import_line "a " "os")) /\
  in_order (import_line EmptyString "fmt") (import_line EmptyString "platform/z")
  /\ in_order (import_line EmptyString "platform/z")
       (import_line EmptyString "github.com/x/y").
Proof.
  split.
  - destruct (formatFile_block_in_order stable_sort stable_sort_contract
                "a.go" aliased_imports) as [Hmem _]; [vm_compute; reflexivity|].
    assert (formatted_lines stable_sort (readFile "a.go" aliased_imports) !! 1
            = Some (import_line "z " "fmt")) as H1 by (vm_compute; reflexivity).
    assert (formatted_lines stable_sort (readFile "a.go" aliased_imports) !! 2
            = Some (import_line "a " "os")) as H2 by (vm_compute; reflexivity).
    split; [exact H1|]. split; [exact H2|].
    split; [vm_compute; reflexivity|]. split; [vm_compute; reflexivity|].
    split; [vm_compute; reflexivity|].
    apply (Hmem 1 2); [vm_compute; lia | lia | vm_compute; lia
                      | exact H1 | exact H2 | discriminate | discriminate].
  - destruct (formatFile_block_in_order stable_sort stable_sort_contract
                "a.go" three_groups) as [Hmem Hout]; [vm_compute; reflexivity|].
    split.
    + apply (Hmem 2 3); [vm_compute; lia | lia | vm_compute; lia
                        | vm_compute; reflexivity | vm_compute; reflexivity
                        | discriminate | discriminate].
    + apply (Hout 4 6); [vm_compute; lia | lia | vm_compute; lia
                        | vm_compute; reflexivity | vm_compute; reflexivity
                        | discriminate | discriminate].
Defined.

Lemma findIncludes_invariant_witness :
  findIncludes (formatted_lines stable_sort (readFile "a.go" three_groups))
  = (2, 6).
Proof.
  destruct (findIncludes_invariant stable_sort stable_sort_contract
              (readFile "a.go" three_groups)) as (_ & H & _).
  rewrite H. vm_compute. reflexivity.
Defined.

Lemma formatFile_separators_witness :
  located_block (readFile "a.go" (formatFile stable_sort "a.go" three_groups).2)
  = [ import_line EmptyString "fmt"; EmptyString;
      import_line EmptyString "platform/z"; EmptyString;
      import_line EmptyString "github.com/x/y" ]
  /\ separators_at_boundaries
       (located_block
          (readFile "a.go" (formatFile stable_sort "a.go" three_groups).2)).
Proof.
  destruct (formatFile_separators stable_sort stable_sort_contract
              "a.go" three_groups) as (H1 & H2 & _); [vm_compute; reflexivity|].
  split; [|exact H2]. rewrite H1. vm_compute. reflexivity.
Defined.

Lemma formatFile_outside_block_witness :
  let written :=
    readFile "a.go" (formatFile stable_sort "a.go" three_groups).2 in
  take (findIncludes written).1 written = ["package a"; "import ("] /\
  drop (findIncludes written).2 written = [")"; "func main() {}"].
Proof.
  destruct (formatFile_outside_block stable_sort stable_sort_contract
              "a.go" three_groups) as (_ & _ & H); [vm_compute; reflexivity|].
  destruct H as [H1 H2].
  - vm_compute. repeat constructor; discriminate.
  - split; [rewrite H1 | rewrite H2]; vm_compute; reflexivity.
Defined.

(** The line in front of the block that is the text of the marker is not
    written, against C4 as it is stated. *)
Lemma formatFile_outside_block_counterexample :
  let lines := readFile "a.go" marker_outside in
  let written :=
    readFile "a.go" (formatFile stable_sort "a.go" marker_outside).2 in
  m_result_message (formatFile stable_sort "a.go" marker_outside).1 = "done" /\
  findIncludes lines = (2, 3) /\
  lines !! 0 = Some g_deleted_line /\
  (g_deleted_line ∉ written) /\
  take (findIncludes written).1 written <> take (findIncludes lines).1 lines.
Proof.
  vm_compute. split; [reflexivity|]. split; [reflexivity|].
  split; [reflexivity|]. split; [|discriminate].
  intros H. repeat (apply elem_of_cons in H as [H|H]; [discriminate H|]).
  by apply elem_of_nil in H.
Defined.

Lemma formatFile_twice_witness :
  (formatFile stable_sort "a.go" (formatFile stable_sort "a.go" three_groups).2).2
  = (formatFile stable_sort "a.go" three_groups).2.
Proof.
  apply (formatFile_twice stable_sort stable_sort_contract "a.go" three_groups).
  apply tie_freeb_tie_free. vm_compute. reflexivity.
Defined.

(** With a sorting algorithm that keeps the contract of [std::sort] but not
    the order of equivalent lines, the second run changes the file: C3 as it
    is stated fails. *)
Lemma formatFile_twice_counterexample :
  std_sort_contract reversing_sort /\
  let fs1 := (formatFile reversing_sort "a.go" two_aliases).2 in
  (formatFile reversing_sort "a.go" fs1).2 !! "a.go" <> fs1 !! "a.go".
Proof.
  split; [apply reversing_sort_contract|]. vm_compute. discriminate.
Defined.

(** The model of libstdc++ sorts: on forty strings it agrees with the sort
    by insertion. *)
Example libstdcxx_sorts :
  let l := (fun i => String (ascii_of_nat (65 + (i * 7) mod 23))
                       (String (ascii_of_nat (65 + (i * 5) mod 11)) EmptyString))
             <$> seq 0 40 in
  Libstdcxx.sort String.ltb l = stable_sort String.ltb l.
Proof. vm_compute. reflexivity. Qed.

(** So it is with the introsort of libstdc++, which moves equivalent lines
    of a block of more than sixteen lines. *)
Example formatFile_twice_libstdcxx :
  let fs1 := (formatFile Libstdcxx.sort "a.go" seventeen_aliases).2 in
  (formatFile Libstdcxx.sort "a.go" fs1).2 !! "a.go" <> fs1 !! "a.go".
Proof. vm_compute. discriminate. Qed.

(** A file without lines has [begin = end], and yet is not reported as
    having no includes: C5 as it is stated fails. *)
Lemma findIncludes_locates_counterexample :
  let lines := readFile "a.go" no_bytes in
  lines = [] /\ (findIncludes lines).1 = (findIncludes lines).2 /\
  m_result_message (formatFile stable_sort "a.go" no_bytes).1
  = "failed to read from file" /\
  m_result_message (formatFile stable_sort "a.go" no_bytes).1
  <> "no includes found".
Proof. vm_compute. repeat split; discriminate. Defined.

Lemma findIncludes_locates_witness :
  (findIncludes (readFile "a.go" commented_delimiters) = (1, 1) /\
   opening_delimiter "  import (  // deps" /\
   closing_delimiter " ) // end" /\
   formatFile stable_sort "a.go" commented_delimiters
   = ({| m_path := "a.go"; m_result_message := "no includes found" |},
      commented_delimiters)) /\
  (findIncludes (readFile "b.go" commented_delimiters) = (2, 4) /\
   opening_delimiter "import(// deps" /\ closing_delimiter ")// end" /\
   ~ closing_delimiter (import_line EmptyString "fmt")) /\
  formatFile stable_sort "a.go" single_import
  = ({| m_path := "a.go"; m_result_message := "no includes found" |},
     single_import).
Proof.
  split; [|split].
  - pose proof (findIncludes_locates (readFile "a.go" commented_delimiters))
      as (Hopen & Hclose & _ & _ & Hdriver).
    assert (findIncludes (readFile "a.go" commented_delimiters) = (1, 1))
      as Hf by (vm_compute; reflexivity).
    rewrite Hf in Hopen, Hclose. cbn [fst snd] in Hopen, Hclose.
    split; [exact Hf|].
    destruct Hopen as [(k & imp & Hk & Hi & _ & Hb)|[_ Hb]];
      [|vm_compute in Hb; discriminate Hb].
    injection Hb as <-. vm_compute in Hk. injection Hk as <-.
    split; [exact Hi|].
    destruct Hclose as [(c & Hc & Hcl)|He]; [|vm_compute in He; discriminate He].
    vm_compute in Hc. injection Hc as <-. split; [exact Hcl|].
    apply Hdriver;
      [reflexivity | vm_compute; discriminate | vm_compute; reflexivity].
  - pose proof (findIncludes_locates (readFile "b.go" commented_delimiters))
      as (Hopen & Hclose & Hnone & _ & _).
    assert (findIncludes (readFile "b.go" commented_delimiters) = (2, 4))
      as Hf by (vm_compute; reflexivity).
    rewrite Hf in Hopen, Hclose, Hnone. cbn [fst snd] in Hopen, Hclose, Hnone.
    split; [exact Hf|].
    destruct Hopen as [(k & imp & Hk & Hi & _ & Hb)|[_ Hb]];
      [|vm_compute in Hb; discriminate Hb].
    injection Hb as <-. vm_compute in Hk. injection Hk as <-.
    split; [exact Hi|].
    destruct Hclose as [(c & Hc & Hcl)|He]; [|vm_compute in He; discriminate He].
    vm_compute in Hc. injection Hc as <-. split; [exact Hcl|].
    apply (Hnone 3); [lia | vm_compute; reflexivity].
  - pose proof (findIncludes_locates (readFile "a.go" single_import))
      as (_ & _ & _ & _ & H).
    apply H; [reflexivity | vm_compute; discriminate | vm_compute; reflexivity].
Defined.

(** The scenarios of the specification. *)

Example scenario_A :
  m_result_message (formatFile stable_sort "a.go" three_groups).1 = "done" /\
  readFile "a.go" (formatFile stable_sort "a.go" three_groups).2
  = [ "package a"; "import ("; import_line EmptyString "fmt"; EmptyString;
      import_line EmptyString "platform/z"; EmptyString;
      import_line EmptyString "github.com/x/y"; ")"; "func main() {}" ].
Proof. vm_compute. split; reflexivity. Qed.

Example scenario_B :
  formatFile stable_sort "a.go" single_import
  = ({| m_path := "a.go"; m_result_message := "no includes found" |},
     single_import).
Proof. vm_compute. reflexivity. Qed.

Example scenario_C :
  m_result_message (formatFile stable_sort "a.go" no_bytes).1
  = "failed to read from file" /\
  m_result_message (formatFile stable_sort "b.go" no_bytes).1
  = "failed to read from file".
Proof. vm_compute. split; reflexivity. Qed.

Example scenario_D :
  let outcome :=
    main stable_sort (fun _ => Some true)
      (fun _ => {| walk_entries := ["notes.txt"]; walk_throws := false |})
      (fun _ => ".txt") ["order_includes"; "docs"] no_bytes in
  exit_code outcome = (-3)%Z /\ std_out outcome = [] /\ files outcome = no_bytes.
Proof. vm_compute. repeat split; reflexivity. Qed.

(** * Further properties of the program *)

(** ** Strings *)

Lemma append_assoc s t u : (s +:+ t) +:+ u = s +:+ (t +:+ u).
Proof.
  induction s as [|ch s IH]; [done|]. by rewrite !append_String, IH.
Qed.

Lemma append_empty_r s : s +:+ EmptyString = s.
Proof. induction s as [|ch s IH]; [done|]. by rewrite append_String, IH. Qed.

Lemma string_take_drop n str : string_take n str +:+ string_drop n str = str.
Proof.
  revert str. induction n as [|n IH]; intros [|ch str]; simpl; try done.
  by rewrite append_String, IH.
Qed.

Lemma string_take_append pre post :
  string_take (String.length pre) (pre +:+ post) = pre.
Proof.
  induction pre as [|ch pre IH]; [by destruct post|].
  rewrite append_String. simpl. by rewrite IH.
Qed.

Lemma string_drop_append pre post :
  string_drop (String.length pre) (pre +:+ post) = post.
Proof. induction pre as [|ch pre IH]; [done|]. by rewrite append_String. Qed.

Lemma removeSpaces_append s t :
  removeSpaces (s +:+ t) = removeSpaces s +:+ removeSpaces t.
Proof.
  induction s as [|ch s IH]; [done|]. rewrite append_String. simpl.
  destruct (isspace ch); [done|]. by rewrite append_String, IH.
Qed.

Lemma removeSpaces_no_space ch str :
  contains (String ch EmptyString) (removeSpaces str) -> isspace ch = false.
Proof.
  induction str as [|d str IH]; simpl.
  - intros (pre & post & H). by destruct pre.
  - destruct (isspace d) eqn:Hd; [done|].
    intros [->|H]%contains_char_inv; [done | by apply IH].
Qed.

Lemma removeSpaces_keeps ch str :
  isspace ch = false -> contains (String ch EmptyString) str ->
  contains (String ch EmptyString) (removeSpaces str).
Proof.
  intros Hch. induction str as [|d str IH]; simpl.
  - intros (pre & post & H). by destruct pre.
  - intros [->|H]%contains_char_inv.
    + rewrite Hch. by exists EmptyString, (removeSpaces str).
    + destruct (isspace d); [by apply IH | by apply contains_String, IH].
Qed.

Lemma removeSpaces_fixed str :
  (forall ch, contains (String ch EmptyString) str -> isspace ch = false) ->
  removeSpaces str = str.
Proof.
  induction str as [|d str IH]; [done|]. intros H. simpl.
  rewrite (H d) by (by exists EmptyString, str). f_equal. apply IH.
  intros ch Hc. by apply H, contains_String.
Qed.

(** X1. [removeSpaces] leaves exactly the characters that are not white
    space: a character occurs in the result if and only if it is no white
    space and occurs in the argument. The function distributes over
    concatenation, and applying it twice is applying it once. *)
Theorem removeSpaces_removes_white_space (s t : string) (ch : ascii) :
  (contains (String ch EmptyString) (removeSpaces s) <->
   isspace ch = false /\ contains (String ch EmptyString) s) /\
  removeSpaces (s +:+ t) = removeSpaces s +:+ removeSpaces t /\
  removeSpaces (removeSpaces s) = removeSpaces s.
Proof.
  split; [|split].
  - split.
    + intros H. split; [by eapply removeSpaces_no_space|].
      eapply removeSpaces_contains_char; [|done]. by eapply removeSpaces_no_space.
    + intros [Hch H]. by apply removeSpaces_keeps.
  - apply removeSpaces_append.
  - apply removeSpaces_fixed. intros c. apply removeSpaces_no_space.
Qed.

(** The part in front of the first occurrence holds no occurrence. *)
Lemma find_take_no_occurrence pat str n :
  pat <> EmptyString -> find pat str = Some n ->
  ~ contains pat (string_take n str).
Proof.
  intros Hpat. revert n. induction str as [|c str IH]; intros n; cbn [find].
  - destruct (String.prefix pat EmptyString) eqn:Hp; [|done].
    apply prefix_starts_with in Hp as [post Hp]. by destruct pat.
  - destruct (String.prefix pat (String c str)) eqn:Hp.
    + intros [= <-]. simpl. intros (pre & post & H). destruct pre, pat; done.
    + destruct (find pat str) as [m|] eqn:Hf; [|done]. intros [= <-].
      simpl. intros (pre & post & H). destruct pre as [|d pre].
      * rewrite append_empty_l in H.
        assert (starts_with pat (String c str)) as Hs.
        { exists (post +:+ string_drop m str).
          rewrite <-append_assoc, <-H, append_String.
          by rewrite string_take_drop. }
        apply prefix_starts_with in Hs. congruence.
      * rewrite append_String in H. injection H as -> H.
        apply (IH m eq_refl). by exists pre, post.
Qed.

Lemma not_contains_find pat str : ~ contains pat str -> find pat str = None.
Proof.
  intros H. destruct (find pat str) as [n|] eqn:Hf; [|done].
  destruct H. apply found_contains. unfold found. by rewrite Hf.
Qed.

(** X2. [removeComments] returns a prefix of its argument in which [//] does
    not occur, the whole argument when [//] does not occur in it; applying it
    twice is applying it once. *)
Theorem removeComments_cuts_comment (str : string) :
  (exists comment, str = removeComments str +:+ comment) /\
  ~ contains "//" (removeComments str) /\
  (~ contains "//" str -> removeComments str = str) /\
  removeComments (removeComments str) = removeComments str.
Proof.
  assert (~ contains "//" (removeComments str)) as Hno.
  { unfold removeComments. destruct (find "//" str) as [n|] eqn:Hf.
    - by apply find_take_no_occurrence.
    - by apply find_None. }
  assert (forall s, ~ contains "//" s -> removeComments s = s) as Hid.
  { intros s Hs. unfold removeComments. by rewrite not_contains_find. }
  split; [|split; [done|split; [apply Hid | by apply Hid]]].
  unfold removeComments. destruct (find "//" str) as [n|].
  - exists (string_drop n str). by rewrite string_take_drop.
  - exists EmptyString. by rewrite append_empty_r.
Qed.

Lemma removeComments_eq_iff delimiter str :
  ~ contains "//" delimiter ->
  (forall post, find "//" (delimiter +:+ "//" +:+ post)
                = Some (String.length delimiter)) ->
  removeComments str = delimiter <->
  str = delimiter \/ starts_with (delimiter +:+ "//") str.
Proof.
  intros Hd Hfind. split.
  - unfold removeComments. destruct (find "//" str) as [n|] eqn:Hf; [|by left].
    intros Ht. right.
    apply find_Some in Hf as (pre & post & -> & <-).
    rewrite string_take_append in Ht. subst pre.
    exists post. by rewrite append_assoc.
  - intros [->|[post ->]].
    + unfold removeComments. by rewrite not_contains_find.
    + unfold removeComments. rewrite append_assoc, Hfind.
      apply string_take_append.
Qed.

(** X3. The delimiters of the block, as [findIncludes] tests them: a line
    opens the block exactly when, its white space removed, it is [import(] or
    begins with [import(//]; it closes the block exactly when, its white
    space removed, it is [)] or begins with [)//]. *)
Theorem delimiters_up_to_space_and_comment (line : string) :
  (opens_block line <->
   removeSpaces line = "import(" \/ starts_with "import(//" (removeSpaces line))
  /\
  (closes_block line <->
   removeSpaces line = ")" \/ starts_with ")//" (removeSpaces line)).
Proof.
  split.
  - apply (removeComments_eq_iff "import(");
      [by apply find_None | intros [|ch post]; reflexivity].
  - apply (removeComments_eq_iff ")");
      [by apply find_None | intros [|ch post]; reflexivity].
Qed.

Lemma find_char_first ch pre post :
  ~ contains (String ch EmptyString) pre ->
  find (String ch EmptyString) (pre +:+ String ch post)
  = Some (String.length pre).
Proof.
  induction pre as [|d pre IH]; intros Hpre.
  - rewrite append_empty_l. cbn [find].
    assert (String.prefix (String ch EmptyString) (String ch post) = true) as ->.
    { apply prefix_starts_with. by exists post. }
    done.
  - rewrite append_String. cbn [find].
    destruct (String.prefix _ (String d (pre +:+ String ch post))) eqn:Hp.
    + apply prefix_starts_with in Hp as [tl Hp]. rewrite append_String in Hp.
      injection Hp as -> _. destruct Hpre. by exists EmptyString, pre.
    + rewrite IH; [done|]. intros Hc. by apply Hpre, contains_String.
Qed.

(** X4. The name in front of the quoted path does not count in the key: for
    an [alias] without quotation mark, [removeUserModuleName] returns the line
    from the quotation mark on, and the key of the line is the quoted part
    without its white space, whatever the alias. *)
Theorem path_key_without_alias (alias rest : string) :
  ~ contains (String dquote EmptyString) alias ->
  removeUserModuleName (alias +:+ String dquote rest) = String dquote rest /\
  path_key (alias +:+ String dquote rest) = String dquote (removeSpaces rest).
Proof.
  intros Ha. split.
  - unfold removeUserModuleName. rewrite find_char_first by done.
    apply string_drop_append.
  - unfold path_key, removeUserModuleName.
    rewrite removeSpaces_append.
    change (removeSpaces (String dquote rest))
      with (String dquote (removeSpaces rest)).
    rewrite find_char_first; [apply string_drop_append|].
    intros Hc. by apply removeSpaces_contains_char in Hc.
Qed.

Lemma path_key_without_alias_witness :
  path_key (import_line "log " "fmt") = path_key (import_line EmptyString "fmt").
Proof.
  assert (forall alias, import_line alias "fmt"
            = (tab +:+ alias) +:+ String dquote ("fmt" +:+ String dquote EmptyString))
    as Hl by (intros alias; unfold import_line; by rewrite !append_assoc).
  rewrite !Hl.
  destruct (path_key_without_alias (tab +:+ "log ")
              ("fmt" +:+ String dquote EmptyString)) as [_ ->];
    [by apply find_None|].
  destruct (path_key_without_alias (tab +:+ EmptyString)
              ("fmt" +:+ String dquote EmptyString)) as [_ ->];
    [by apply find_None|].
  reflexivity.
Defined.

(** ** The comparator *)

(** X5. Two lines that are not the marker are equivalent under [cmp], none
    less than the other, exactly when they have one category and one key; so
    the text in front of the quoted path and the white space decide
    nothing. *)
Theorem cmp_equivalence_classes (x y : string) :
  x <> g_deleted_line -> y <> g_deleted_line ->
  cmp x y = false /\ cmp y x = false <->
  moduleType x = moduleType y /\ path_key x = path_key y.
Proof.
  intros Hx Hy. split.
  - intros [Hxy Hyx]. by apply cmp_equivalent_key.
  - intros [Ht Hk]. split; apply cmp_false_iff; right.
    + split; [done|]. right. split; [done|]. by rewrite Hk.
    + split; [done|]. right. split; [done|]. by rewrite Hk.
Qed.

Lemma cmp_equivalence_classes_witness :
  cmp (import_line "log " "fmt") (import_line EmptyString "fmt") = false /\
  cmp (import_line EmptyString "fmt") (import_line "log " "fmt") = false.
Proof.
  apply cmp_equivalence_classes; [discriminate | discriminate |].
  split; vm_compute; reflexivity.
Defined.

(** ** Reading *)

Lemma readFile_loop_app fuel : forall file result,
  readFile_loop fuel file result = result ++ readFile_loop fuel file [].
Proof.
  induction fuel as [|fuel IH]; intros file result; simpl.
  { by rewrite app_nil_r. }
  destruct (getline file) as [[line unread]|]; [|by rewrite app_nil_r].
  rewrite (IH unread (result ++ [line])), (IH unread [line]).
  by rewrite <-(assoc_L (++)).
Qed.

(** What [std::getline] extracts: the bytes up to the first line feed, or
    all the bytes when there is none. *)
Lemma getline_chars_split file :
  newline_free (getline_chars file).1 /\
  (file = (getline_chars file).1 +:+ String newline (getline_chars file).2 \/
   file = (getline_chars file).1 /\ (getline_chars file).2 = EmptyString).
Proof.
  split; [apply getline_chars_newline_free|].
  induction file as [|ch file IH]; simpl; [by right|].
  destruct (Ascii.eqb_spec ch newline) as [->|Hch]; simpl; [by left|].
  destruct (getline_chars file) as [line unread]. simpl in *.
  destruct IH as [->|[-> ->]]; [by left | by right].
Qed.

Lemma ends_with_newline_append s t :
  t <> EmptyString -> ends_with_newline (s +:+ t) = ends_with_newline t.
Proof.
  intros Ht. induction s as [|ch s IH]; [done|].
  rewrite append_String. cbn [ends_with_newline].
  destruct (s +:+ t) eqn:Hs; [|done]. by destruct s, t.
Qed.

Lemma ends_with_newline_free line :
  newline_free line -> ends_with_newline line = false.
Proof.
  induction line as [|ch line IH]; [done|].
  intros [Hch Hl]%newline_free_String. cbn [ends_with_newline].
  destruct line; [by apply Ascii.eqb_neq | by apply IH].
Qed.

(** The lines read, each followed by a line feed, are the bytes of the
    file, with one line feed more when the file does not end with one. *)
Lemma readFile_loop_bytes fuel : forall file,
  String.length file < fuel ->
  stream_bytes (readFile_loop fuel file [])
  = if empty file || ends_with_newline file then file
    else file +:+ String newline EmptyString.
Proof.
  induction fuel as [|fuel IH]; intros file Hf; [lia|].
  destruct (decide (file = EmptyString)) as [->|Hne]; [done|].
  assert (getline file = Some (getline_chars file)) as Hg by (by destruct file).
  assert (empty file = false) as He by (by destruct file).
  cbn [readFile_loop]. rewrite Hg, He. cbn [orb].
  pose proof (getline_chars_split file) as [Hfree Hs].
  destruct (getline_chars file) as [line unread]. cbn [fst snd] in *.
  rewrite readFile_loop_app. cbn [app stream_bytes].
  destruct Hs as [Hs|[Hs ->]].
  - subst file. rewrite length_append in Hf. simpl in Hf.
    rewrite IH by lia. destruct unread as [|d unread].
    + cbn [empty orb]. by rewrite (ends_with_newline_append line).
    + cbn [empty orb].
      rewrite (ends_with_newline_append line (String newline (String d unread)))
        by done.
      cbn [ends_with_newline].
      destruct (match unread with
                | EmptyString => Ascii.eqb d newline
                | String _ _ => ends_with_newline unread
                end); [done|].
      by rewrite append_assoc, append_String.
  - subst file. rewrite (ends_with_newline_free line) by done.
    by destruct fuel.
Qed.

(** X6. [readFile] followed by the writing of the lines gives back the bytes
    of the file when the file is empty or ends with a line feed, and the bytes
    of the file followed by one line feed when its last line had none; the
    lines themselves hold no line feed. *)
Theorem readFile_keeps_bytes (path : string) (fs : FileSystem) (file : string) :
  fs !! path = Some file ->
  stream_bytes (readFile path fs)
  = (if empty file || ends_with_newline file then file
     else file +:+ String newline EmptyString) /\
  Forall newline_free (readFile path fs).
Proof.
  intros Hf. split; [|apply readFile_newline_free].
  unfold readFile. rewrite Hf. apply readFile_loop_bytes. lia.
Qed.

Lemma readFile_keeps_bytes_witness :
  stream_bytes (readFile "a.go" three_groups)
  = default EmptyString (three_groups !! "a.go") /\
  stream_bytes (readFile "a.go" (<["a.go" := "package a"]> ∅))
  = stream_bytes ["package a"].
Proof.
  split.
  - destruct (readFile_keeps_bytes "a.go" three_groups
                (default EmptyString (three_groups !! "a.go"))) as [H _];
      [vm_compute; reflexivity|].
    rewrite H. vm_compute. reflexivity.
  - destruct (readFile_keeps_bytes "a.go" (<["a.go" := "package a"]> ∅)
                "package a") as [H _]; [vm_compute; reflexivity|].
    rewrite H. vm_compute. reflexivity.
Defined.

(** X7. [readFile] yields no line exactly when the path cannot be opened or
    the file has no byte; every line it yields is free of line feeds. *)
Theorem readFile_no_line (path : string) (fs : FileSystem) :
  (readFile path fs = [] <->
   fs !! path = None \/ fs !! path = Some EmptyString) /\
  Forall newline_free (readFile path fs).
Proof.
  split; [|apply readFile_newline_free].
  unfold readFile. destruct (fs !! path) as [[|ch file]|] eqn:Hf.
  - split; [by right | done].
  - cbn [readFile_loop getline].
    destruct (getline_chars (String ch file)) as [line unread].
    rewrite readFile_loop_app. split; [done|]. by intros [?|?].
  - split; [by left | done].
Qed.

(** X8. A last line without line feed is read like the others: after lines
    ended by line feeds, bytes that are not empty and hold no line feed make
    one more line, as if a line feed followed them. *)
Theorem readFile_last_line (path : string) (fs : FileSystem)
  (records : list string) (line : string) :
  Forall newline_free records -> newline_free line -> line <> EmptyString ->
  readFile path (<[path := stream_bytes records +:+ line]> fs)
  = records ++ [line] /\
  readFile path (<[path := stream_bytes (records ++ [line])]> fs)
  = records ++ [line].
Proof.
  intros Hr Hl Hne. split.
  2: { apply readFile_written. apply Forall_app. split; [done|]. by constructor. }
  unfold readFile. rewrite lookup_insert_eq.
  assert (forall n, String.length (stream_bytes records +:+ line) < n ->
            readFile_loop n (stream_bytes records +:+ line) []
            = records ++ [line]) as H.
  { induction Hr as [|record records Hrec _ IH]; intros n Hn.
    - rewrite append_empty_l in *. destruct n as [|n]; [lia|].
      destruct line as [|ch line]; [done|]. cbn [readFile_loop getline].
      pose proof (getline_chars_split (String ch line)) as [_ Hs].
      destruct (getline_chars (String ch line)) as [l unread]. simpl in Hs.
      destruct Hs as [Hs|[<- ->]].
      + destruct Hl. rewrite Hs. by exists l, unread.
      + by destruct n.
    - cbn [stream_bytes] in *. rewrite append_assoc, append_String in *.
      rewrite length_append in Hn. simpl in Hn.
      destruct n as [|n]; [lia|]. cbn [readFile_loop].
      assert (getline (record +:+ String newline (stream_bytes records +:+ line))
              = Some (record, stream_bytes records +:+ line)) as ->.
      { rewrite <-(getline_chars_append record) by done. by destruct record. }
      rewrite readFile_loop_app, IH by lia. done. }
  apply H. lia.
Qed.

Lemma readFile_last_line_witness :
  readFile "a.go" (<["a.go" := stream_bytes ["package a"] +:+ "func f()"]> ∅)
  = ["package a"; "func f()"].
Proof.
  apply (readFile_last_line "a.go" ∅ ["package a"] "func f()").
  - repeat constructor. by apply find_None.
  - by apply find_None.
  - discriminate.
Defined.

(** ** The blank line normalizer *)

Lemma deleteEmptyLines_step_insert begin lines :
  begin < length lines ->
  deleteEmptyLines_step begin lines
  = <[begin := mark_blank (line_at lines begin)]> lines.
Proof.
  intros Hb. unfold deleteEmptyLines_step, mark_blank.
  destruct (lookup_lt_is_Some_2 lines begin Hb) as [x Hx].
  unfold line_at. rewrite Hx. simpl.
  destruct (empty x); simpl; [done|].
  destruct (all_of_isspace x); [done|]. by rewrite list_insert_id.
Qed.

Lemma deleteEmptyLines_loop_lookup n : forall begin lines i,
  begin + n <= length lines ->
  deleteEmptyLines_loop n begin lines !! i
  = if decide (begin <= i < begin + n) then mark_blank <$> lines !! i
    else lines !! i.
Proof.
  induction n as [|n IH]; intros begin lines i Hn; cbn [deleteEmptyLines_loop].
  { by rewrite decide_False by lia. }
  rewrite deleteEmptyLines_step_insert by lia.
  rewrite IH by (rewrite length_insert; lia).
  destruct (decide (i = begin)) as [->|Hne].
  - rewrite decide_False, decide_True by lia.
    rewrite list_lookup_insert_eq by lia. unfold line_at.
    destruct (lookup_lt_is_Some_2 lines begin) as [x Hx]; [lia|].
    by rewrite Hx.
  - rewrite list_lookup_insert_ne by done.
    destruct (decide (S begin <= i < S begin + n)).
    + by rewrite decide_True by lia.
    + by rewrite decide_False by lia.
Qed.

Lemma deleteEmptyLines_loop_length n : forall begin lines,
  length (deleteEmptyLines_loop n begin lines) = length lines.
Proof.
  induction n as [|n IH]; intros begin lines; cbn [deleteEmptyLines_loop];
    [done|].
  rewrite IH. unfold deleteEmptyLines_step.
  by repeat destruct (_ : bool); rewrite ?length_insert.
Qed.

Lemma mark_blank_idempotent line : mark_blank (mark_blank line) = mark_blank line.
Proof.
  assert (mark_blank line = g_deleted_line \/ mark_blank line = line) as [H|H].
  { unfold mark_blank. destruct (_ || _); [by left | by right]. }
  - rewrite H. reflexivity.
  - by rewrite !H.
Qed.

(** X9. [deleteEmptyLines] on a range inside the vector keeps the length of
    the vector and the lines out of the range; in the range it puts the marker
    in the place of the lines that are empty or all white space and keeps the
    others. Doing it twice is doing it once. *)
Theorem deleteEmptyLines_marks_the_range (begin end_ : nat)
  (lines : list string) :
  end_ <= length lines ->
  length (deleteEmptyLines begin end_ lines) = length lines /\
  (forall i, deleteEmptyLines begin end_ lines !! i
             = if decide (begin <= i < end_) then mark_blank <$> lines !! i
               else lines !! i) /\
  deleteEmptyLines begin end_ (deleteEmptyLines begin end_ lines)
  = deleteEmptyLines begin end_ lines.
Proof.
  intros He.
  assert (forall l i, end_ <= length l ->
            deleteEmptyLines begin end_ l !! i
            = if decide (begin <= i < end_) then mark_blank <$> l !! i
              else l !! i) as Hlookup.
  { intros l i Hl. unfold deleteEmptyLines.
    destruct (decide (begin <= end_)) as [Hbe|Hbe].
    - rewrite deleteEmptyLines_loop_lookup by lia.
      replace (begin + (end_ - begin)) with end_ by lia. done.
    - replace (end_ - begin) with 0 by lia. simpl.
      by rewrite decide_False by lia. }
  assert (forall l, length (deleteEmptyLines begin end_ l) = length l) as Hlen.
  { intros l. apply deleteEmptyLines_loop_length. }
  split; [done|]. split; [intros i; by apply Hlookup|].
  apply list_eq. intros i. rewrite !Hlookup by (by rewrite ?Hlen).
  destruct (decide (begin <= i < end_)); [|done].
  destruct (lines !! i); [|done]. simpl. by rewrite mark_blank_idempotent.
Qed.

Lemma deleteEmptyLines_marks_the_range_witness :
  deleteEmptyLines 1 3 ["import ("; EmptyString; "  "; EmptyString]
  = ["import ("; g_deleted_line; g_deleted_line; EmptyString].
Proof.
  destruct (deleteEmptyLines_marks_the_range 1 3
              ["import ("; EmptyString; "  "; EmptyString])
    as (_ & Hlookup & _); [simpl; lia|].
  apply list_eq. intros i. rewrite Hlookup.
  by destruct i as [|[|[|[|i]]]].
Defined.

(** ** The renderer *)

Lemma render_from_elem b e : forall rest i x,
  x ∈ render_from b e i rest ->
  x = EmptyString \/ (x ∈ rest /\ x <> g_deleted_line).
Proof.
  induction rest as [|current rest IH]; intros i x; cbn [render_from].
  { by intros ?%elem_of_nil. }
  rewrite !elem_of_app. intros [H|[H|H]].
  - destruct (String.eqb_spec current g_deleted_line) as [?|Hc]; simpl in H.
    + by apply elem_of_nil in H.
    + apply list_elem_of_singleton in H as ->. right. split; [by left | done].
  - left. destruct rest as [|next rest']; [by apply elem_of_nil in H|].
    destruct (_ && _) in H; [|by apply elem_of_nil in H].
    by apply list_elem_of_singleton in H.
  - destruct (IH _ _ H) as [?|[? ?]]; [by left|]. right. split; [by right | done].
Qed.

Lemma render_from_sublist b e : forall rest i,
  surviving rest `sublist_of` render_from b e i rest.
Proof.
  induction rest as [|current rest IH]; intros i; cbn [render_from]; [done|].
  destruct (String.eqb_spec current g_deleted_line) as [->|Hc]; simpl.
  - rewrite surviving_cons_marker. apply sublist_inserts_l, IH.
  - rewrite surviving_cons by done. constructor.
    apply sublist_inserts_l, IH.
Qed.

(** X10. Whatever the vector, the renderer never writes the marker; every
    record it writes is the empty line or a line of the vector; and the lines
    of the vector that are not the marker are all written, in their
    order. *)
Theorem written_records_drop_markers_only (lines : list string) :
  (g_deleted_line ∉ written_records lines) /\
  (forall x, x ∈ written_records lines -> x = EmptyString \/ x ∈ lines) /\
  surviving lines `sublist_of` written_records lines.
Proof.
  rewrite written_records_render. split; [|split].
  - intros [H|[_ H]]%render_from_elem; [discriminate H | done].
  - intros x [?|[? _]]%render_from_elem; [by left | by right].
  - apply render_from_sublist.
Qed.

(** X11. What the renderer writes to a file for a vector of lines without
    line feed is what [readFile] reads from that file afterwards, record by
    record. *)
Theorem readFile_after_write (path : string) (lines : list string)
  (fs : FileSystem) :
  Forall newline_free lines ->
  readFile path (writeWithoutDeletedLinesAndWithSeparatedGroups path lines fs)
  = written_records lines.
Proof.
  intros Hn. unfold writeWithoutDeletedLinesAndWithSeparatedGroups.
  apply readFile_written, Forall_forall. intros x Hx.
  rewrite written_records_render in Hx.
  apply render_from_elem in Hx as [->|[Hx _]]; [apply newline_free_empty|].
  rewrite Forall_forall in Hn. by apply Hn.
Qed.

Lemma readFile_after_write_witness :
  readFile "b.go"
    (writeWithoutDeletedLinesAndWithSeparatedGroups "b.go"
       ["import ("; g_deleted_line; import_line EmptyString "fmt"; ")"] ∅)
  = ["import ("; import_line EmptyString "fmt"; ")"].
Proof.
  rewrite readFile_after_write; [vm_compute; reflexivity|].
  repeat constructor; by apply find_None.
Defined.

(** ** The driver *)

Lemma formatFile_frame std_sort path fs p :
  p <> path -> (formatFile std_sort path fs).2 !! p = fs !! p.
Proof.
  intros Hp. unfold formatFile. case_bool_decide; [done|].
  destruct (findIncludes (readFile path fs)) as [b e].
  destruct (e <=? b)%nat; [done|]. simpl.
  unfold writeWithoutDeletedLinesAndWithSeparatedGroups.
  by rewrite lookup_insert_ne.
Qed.

(** X12. [formatFile] reports on the path it was given, with one of its three
    messages; it changes no other file, creates no file, and changes the file
    only when it reports [done]. *)
Theorem formatFile_touches_one_file (std_sort : sort_algorithm)
  (path : string) (fs : FileSystem) :
  m_path (formatFile std_sort path fs).1 = path /\
  (m_result_message (formatFile std_sort path fs).1 = "done" \/
   (m_result_message (formatFile std_sort path fs).1 = "no includes found" /\
    (formatFile std_sort path fs).2 = fs) \/
   (m_result_message (formatFile std_sort path fs).1
    = "failed to read from file" /\ (formatFile std_sort path fs).2 = fs)) /\
  (forall p, p <> path -> (formatFile std_sort path fs).2 !! p = fs !! p) /\
  (fs !! path = None -> (formatFile std_sort path fs).2 = fs).
Proof.
  split; [|split; [|split]].
  - unfold formatFile. case_bool_decide; [done|].
    destruct (findIncludes (readFile path fs)) as [b e].
    by destruct (e <=? b)%nat.
  - unfold formatFile. case_bool_decide; [by right; right|].
    destruct (findIncludes (readFile path fs)) as [b e].
    destruct (e <=? b)%nat; [right; by left | by left].
  - intros p. apply formatFile_frame.
  - intros Hnone. rewrite formatFile_unreadable; [done|].
    unfold readFile. by rewrite Hnone.
Qed.

Lemma surviving_mark_blank blk :
  surviving (mark_blank <$> blk) = block_entries blk.
Proof.
  unfold block_entries. induction blk as [|x blk IH]; [done|].
  cbn [fmap list_fmap]. destruct (decide (blank x)) as [Hb|Hb].
  - rewrite filter_cons_False by (by intros [? _]).
    assert (mark_blank x = g_deleted_line) as ->.
    { unfold mark_blank. apply all_of_isspace_blank in Hb. rewrite Hb.
      by rewrite orb_true_r. }
    by rewrite surviving_cons_marker.
  - rewrite mark_blank_id by done.
    destruct (decide (x = g_deleted_line)) as [->|Hd].
    + rewrite surviving_cons_marker, filter_cons_False by (by intros [_ ?]).
      done.
    + by rewrite surviving_cons, filter_cons_True, IH.
Qed.

Section Imports.
Variable std_sort : sort_algorithm.
Hypothesis std_sort_ok : std_sort_contract std_sort.

(** X13. No import is lost and none is added: in the file written by a run
    that reports [done], the lines of the block other than the empty
    separators are, in some order, the lines of the block of the input that
    were neither blank nor the marker. *)
Theorem formatFile_keeps_the_imports (path : string) (fs : FileSystem) :
  m_result_message (formatFile std_sort path fs).1 = "done" ->
  filter (fun l => l <> EmptyString)
    (located_block (readFile path (formatFile std_sort path fs).2))
  ≡ₚ block_entries (located_block (readFile path fs)).
Proof.
  intros Hlt%formatFile_message.
  rewrite (readFile_formatted std_sort std_sort_ok) by done.
  destruct (block_shape_of_done _ Hlt)
    as (before & imp & blk & post & -> & Hs & _ & _).
  rewrite (written_formatted_shape std_sort std_sort_ok) by done.
  rewrite !located_block_shape by (done || by apply written_shape).
  rewrite filter_separated.
  - by rewrite (survivors_permutation std_sort std_sort_ok), surviving_mark_blank.
  - eapply Forall_impl; [by apply survivors_not_blank|].
    intros z. apply not_blank_not_empty.
Qed.

(** X14. When every line of the block is blank or the marker, the run
    reports [done] and leaves the two delimiters next to each other; the next
    run on the file reports that no includes were found. *)
Theorem formatFile_blank_block (path : string) (fs : FileSystem) :
  m_result_message (formatFile std_sort path fs).1 = "done" ->
  block_entries (located_block (readFile path fs)) = [] ->
  located_block (readFile path (formatFile std_sort path fs).2) = [] /\
  m_result_message
    (formatFile std_sort path (formatFile std_sort path fs).2).1
  = "no includes found".
Proof.
  intros Hlt%formatFile_message Hnone.
  pose proof (readFile_formatted std_sort std_sort_ok path fs Hlt) as Hread.
  destruct (block_shape_of_done _ Hlt)
    as (before & imp & blk & post & Hlines & Hs & _ & _).
  rewrite Hlines in Hnone, Hread.
  rewrite located_block_shape in Hnone by done.
  rewrite (written_formatted_shape std_sort std_sort_ok) in Hread by done.
  assert (survivors std_sort blk = []) as Hsv.
  { apply Permutation_nil_r.
    by rewrite (survivors_permutation std_sort std_sort_ok),
      surviving_mark_blank, Hnone. }
  rewrite Hsv in Hread. cbn [separated app] in Hread.
  assert (block_shape (surviving before) imp [] (surviving post)) as Hs'.
  { pose proof (written_shape std_sort std_sort_ok _ _ _ _ Hs) as H.
    by rewrite Hsv in H. }
  split.
  - rewrite Hread. by apply (located_block_shape _ _ []).
  - rewrite formatFile_no_block; [done| |].
    + rewrite Hread. by destruct (surviving before).
    + pose proof (findIncludes_shape _ _ [] _ Hs') as Hf. cbn [app] in Hf.
      rewrite Hread, Hf. simpl. lia.
Qed.
End Imports.

Lemma formatFile_keeps_the_imports_witness :
  filter (fun l => l <> EmptyString)
    (located_block
       (readFile "a.go" (formatFile stable_sort "a.go" three_groups).2))
  ≡ₚ [ import_line EmptyString "fmt"; import_line EmptyString "github.com/x/y";
       import_line EmptyString "platform/z" ].
Proof.
  rewrite (formatFile_keeps_the_imports stable_sort stable_sort_contract
             "a.go" three_groups); [|vm_compute; reflexivity].
  vm_compute. reflexivity.
Defined.

Lemma formatFile_blank_block_witness :
  readFile "a.go" (formatFile stable_sort "a.go" blank_block).2
  = ["import ("; ")"] /\
  m_result_message
    (formatFile stable_sort "a.go" (formatFile stable_sort "a.go" blank_block).2).1
  = "no includes found".
Proof.
  destruct (formatFile_blank_block stable_sort stable_sort_contract
              "a.go" blank_block) as [_ H];
    [vm_compute; reflexivity | vm_compute; reflexivity |].
  split; [vm_compute; reflexivity | exact H].
Defined.

(** ** The batch *)

Section Entries.
Variable std_sort : sort_algorithm.
Variable is_directory : string -> option bool.
Variable recursive_directory_iterator : string -> Walk.
Variable extension : string -> string.

Lemma format_entries_skip entries : forall result fs,
  Forall (fun p => extension p <> ".go") entries ->
  format_entries std_sort extension entries result fs = (result, fs).
Proof.
  induction entries as [|p entries IH]; intros result fs H; [done|].
  apply Forall_cons in H as [Hp H]. cbn [format_entries].
  apply String.eqb_neq in Hp. rewrite Hp. by apply IH.
Qed.

Lemma format_entries_frame entries : forall result fs p,
  p ∉ filter (fun q => extension q = ".go") entries ->
  (format_entries std_sort extension entries result fs).2 !! p = fs !! p.
Proof.
  induction entries as [|q entries IH]; intros result fs p Hp; [done|].
  cbn [format_entries].
  destruct (String.eqb_spec (extension q) ".go") as [Hq|Hq].
  - rewrite filter_cons_True in Hp by done.
    apply not_elem_of_cons in Hp as [Hne Hp].
    destruct (formatFile std_sort q fs) as [r fs'] eqn:Hf.
    rewrite IH by done.
    replace fs' with (formatFile std_sort q fs).2 by (by rewrite Hf).
    by apply formatFile_frame.
  - rewrite filter_cons_False in Hp by done. by apply IH.
Qed.

Lemma format_entries_reports entries : forall result fs,
  (format_entries std_sort extension entries result fs).1
  = result ++ (format_entries std_sort extension entries [] fs).1.
Proof.
  induction entries as [|q entries IH]; intros result fs; cbn [format_entries].
  { by rewrite app_nil_r. }
  destruct (String.eqb (extension q) ".go"); [|apply IH].
  destruct (formatFile std_sort q fs) as [r fs'].
  rewrite (IH (result ++ [r])), (IH ([] ++ [r])). by rewrite <-(assoc_L (++)).
Qed.

(** X15. The loop over the entries keeps the reports made so far in front of
    the new ones, and leaves as it is every file that is not an entry with
    the extension [.go]. *)
Theorem format_entries_touches_go_entries (entries : list string)
  (result : list Result) (fs : FileSystem) :
  (format_entries std_sort extension entries result fs).1
  = result ++ (format_entries std_sort extension entries [] fs).1 /\
  (forall p, p ∉ entries \/ extension p <> ".go" ->
     (format_entries std_sort extension entries result fs).2 !! p = fs !! p).
Proof.
  split; [apply format_entries_reports|].
  intros p Hp. apply format_entries_frame.
  intros [Hgo Hin]%list_elem_of_filter. by destruct Hp.
Qed.

(** X16. [main] answers a wrong number of arguments with the usage text and
    the code -1, without a look at the files. With one argument it ends
    with 0 and at least one report, or with -3, no report and all files as
    they were, or with -2, no report and the message of the [catch]; it ends
    with -2 exactly when [fs::is_directory] throws or the traversal of the
    directory throws, and the files rewritten before the exception stay
    rewritten. It never changes a file without the extension [.go]. *)
Theorem main_exit_codes (argv : list string) (fs : FileSystem) :
  let outcome :=
    main std_sort is_directory recursive_directory_iterator extension argv fs in
  let path := line_at argv 1 in
  (length argv <> 2 ->
   outcome = {| exit_code := -1; std_out := []; std_err := [g_usage];
                files := fs |}) /\
  (length argv = 2 ->
   (exit_code outcome = 0%Z /\ std_out outcome <> [] /\ std_err outcome = []) \/
   (exit_code outcome = (-3)%Z /\ std_out outcome = [] /\
    files outcome = fs) \/
   (exit_code outcome = (-2)%Z /\ std_out outcome = [] /\
    std_err outcome = ["unexpected error occured"])) /\
  (length argv = 2 ->
   (exit_code outcome = (-2)%Z <->
    is_directory path = None \/
    (is_directory path = Some true /\
     walk_throws (recursive_directory_iterator path) = true))) /\
  (length argv = 2 -> is_directory path = None -> files outcome = fs) /\
  (length argv = 2 -> is_directory path = Some true ->
   files outcome
   = (format_entries std_sort extension
        (walk_entries (recursive_directory_iterator path)) [] fs).2) /\
  (forall p, extension p <> ".go" -> files outcome !! p = fs !! p).
Proof.
  intros outcome path. subst outcome path. unfold main.
  destruct (Nat.eqb_spec (length argv) 2) as [Hlen|Hlen]; cbn [negb].
  2: { split; [done|]. repeat (split; [done|]). by intros. }
  split; [done|].
  destruct (is_directory (line_at argv 1)) as [directory|] eqn:Hd.
  2: { cbn. split; [intros _; right; by right|].
       split; [intros _; split; [by left | done]|].
       split; [done|]. split; [done | by intros]. }
  set (walk := if directory then recursive_directory_iterator (line_at argv 1)
               else {| walk_entries := [line_at argv 1]; walk_throws := false |}).
  pose proof (format_entries_paths std_sort extension (walk_entries walk) [] fs)
    as Hpaths.
  pose proof (format_entries_frame (walk_entries walk) [] fs) as Hframe.
  assert (directory = true ->
          walk = recursive_directory_iterator (line_at argv 1)) as Hwalk
    by (by intros ->).
  assert (walk_throws walk = true ->
          directory = true /\
          walk_throws (recursive_directory_iterator (line_at argv 1)) = true)
    as Hthrow.
  { subst walk. by destruct directory. }
  destruct (format_entries std_sort extension (walk_entries walk) [] fs)
    as [result fs'] eqn:Hf.
  simpl in Hpaths, Hframe.
  assert (forall p, extension p <> ".go" -> fs' !! p = fs !! p) as Hgo.
  { intros p Hp. apply Hframe. by intros [? _]%list_elem_of_filter. }
  assert (forall z : Z,
            (z = (-2)%Z <-> walk_throws walk = true) ->
            z = (-2)%Z <->
            Some directory = None \/
            (Some directory = Some true /\
             walk_throws (recursive_directory_iterator (line_at argv 1))
             = true)) as Hiff.
  { intros z Hz. rewrite Hz. split.
    - intros [-> ?]%Hthrow. by right.
    - intros [?|[[= ->] ?]]; [done|]. by rewrite (Hwalk eq_refl). }
  assert (Some directory = Some true ->
          fs' = (format_entries std_sort extension
                   (walk_entries (recursive_directory_iterator (line_at argv 1)))
                   [] fs).2) as Hfiles.
  { intros [= ->]. by rewrite <-(Hwalk eq_refl), Hf. }
  destruct (walk_throws walk) eqn:Ht.
  - split; [intros _; right; by right|].
    split; [intros _; by apply Hiff|]. done.
  - case_bool_decide as Hr; simpl.
    + subst result. split; [intros _; right; left|].
      * split; [done|]. split; [done|].
        simpl in Hpaths. symmetry in Hpaths.
        assert (Forall (fun p => extension p <> ".go") (walk_entries walk))
          as Hno.
        { apply Forall_forall. intros p Hp Hgo'.
          assert (p ∈ filter (fun p => extension p = ".go") (walk_entries walk))
            as Hin by (by apply list_elem_of_filter).
          rewrite Hpaths in Hin. by apply elem_of_nil in Hin. }
        rewrite format_entries_skip in Hf by done. congruence.
      * split; [intros _; by apply Hiff|]. done.
    + split; [intros _; left|].
      * split; [done|]. split; [|done]. by destruct result.
      * split; [intros _; by apply Hiff|]. done.
Qed.
End Entries.

(** ** The range that is sorted *)

Lemma lookup_outside_middle (pre mid mid' post : list string) i :
  length mid = length mid' ->
  ~ (length pre <= i < length pre + length mid) ->
  (pre ++ mid' ++ post) !! i = (pre ++ mid ++ post) !! i.
Proof.
  intros Hlen Hi. destruct (decide (i < length pre)) as [Hlt|Hge].
  - by rewrite !lookup_app_l.
  - rewrite !(lookup_app_r pre) by lia.
    rewrite !lookup_app_r by lia. by rewrite Hlen.
Qed.

Section Range.
Variable std_sort : sort_algorithm.
Hypothesis std_sort_ok : std_sort_contract std_sort.

(** X17. Marking and sorting are confined to the located range: the vector
    that [formatFile] hands to the renderer has the length of the vector
    read, the same line at every index out of the range, and in the range a
    rearrangement of the lines of the block with the blank ones marked. *)
Theorem formatted_lines_confined (lines : list string) :
  let begin := (findIncludes lines).1 in
  let end_ := (findIncludes lines).2 in
  length (formatted_lines std_sort lines) = length lines /\
  (forall i, ~ (begin <= i < end_) ->
     formatted_lines std_sort lines !! i = lines !! i) /\
  located_block (formatted_lines std_sort lines)
  ≡ₚ mark_blank <$> located_block lines.
Proof.
  intros begin end_. subst begin end_.
  destruct (block_shape_exists lines)
    as [H|(before & imp & blk & post & -> & Hs)].
  - assert (formatted_lines std_sort lines = lines) as ->.
    { unfold formatted_lines. rewrite findIncludes_no_open by done.
      unfold deleteEmptyLines, sort_range. rewrite Nat.sub_diag.
      cbn [deleteEmptyLines_loop].
      by rewrite take_0, firstn_all, drop_all, (std_sort_nil std_sort),
        !app_nil_r. }
    split; [done|]. split; [done|].
    unfold located_block. rewrite findIncludes_no_open by done.
    by rewrite Nat.sub_diag, take_0.
  - pose proof (sorted_block_permutation std_sort std_sort_ok blk) as Hp.
    pose proof (Permutation_length Hp) as Hlen. rewrite length_fmap in Hlen.
    rewrite (formatted_lines_shape std_sort) by done.
    rewrite findIncludes_shape by done. cbn [fst snd].
    rewrite !located_block_shape
      by (done || by apply (sorted_block_shape std_sort)).
    split; [|split; [|done]].
    + rewrite !length_app. simpl. rewrite !length_app. lia.
    + intros i Hi.
      replace (before ++ imp :: std_sort cmp (mark_blank <$> blk) ++ post)
        with ((before ++ [imp]) ++ std_sort cmp (mark_blank <$> blk) ++ post)
        by (by rewrite <-(assoc_L (++))).
      replace (before ++ imp :: blk ++ post)
        with ((before ++ [imp]) ++ blk ++ post)
        by (by rewrite <-(assoc_L (++))).
      apply lookup_outside_middle; [done|].
      rewrite length_app. simpl. lia.
Qed.
End Range.

Lemma formatted_lines_confined_witness :
  formatted_lines stable_sort (readFile "a.go" three_groups) !! 7
  = Some "func main() {}".
Proof.
  destruct (formatted_lines_confined stable_sort stable_sort_contract
              (readFile "a.go" three_groups)) as (_ & H & _).
  rewrite H; [vm_compute; reflexivity|]. vm_compute. lia.
Defined.

Lemma render_block_short blk :
  length blk <= 1 -> render_block blk = surviving blk.
Proof.
  destruct blk as [|x [|y blk]]; simpl; [done| |lia]. intros _.
  destruct (String.eqb_spec x g_deleted_line) as [->|Hx]; simpl.
  - by rewrite surviving_cons_marker.
  - by rewrite surviving_cons.
Qed.

(** X18. Separators need two lines in the block: for a vector without opening
    delimiter, or with at most one line between the delimiters, the renderer
    writes the lines that are not the marker and nothing else. *)
Theorem written_records_without_separator (lines : list string) :
  length (located_block lines) <= 1 ->
  written_records lines = surviving lines.
Proof.
  intros Hlen. destruct (block_shape_exists lines)
    as [H|(before & imp & blk & post & -> & Hs)].
  - rewrite written_records_render, findIncludes_no_open by done.
    cbn [fst snd]. rewrite <-(app_nil_r lines) at 3.
    rewrite render_from_outside by (left; simpl; lia).
    simpl. by rewrite app_nil_r.
  - rewrite located_block_shape in Hlen by done.
    rewrite written_records_shape, render_block_short by done.
    rewrite !surviving_app. f_equal.
    rewrite surviving_cons by (apply opens_block_not_marker, Hs).
    by rewrite surviving_app.
Qed.

Lemma written_records_without_separator_witness :
  written_records ["import ("; g_deleted_line; ")"; EmptyString; "x"]
  = ["import ("; ")"; EmptyString; "x"].
Proof.
  rewrite written_records_without_separator; [vm_compute; reflexivity|].
  vm_compute. lia.
Defined.

(** ** Indentation *)

Lemma found_after_space pat_head pat_tail ch str :
  isspace pat_head = false -> isspace ch = true ->
  found (String pat_head pat_tail) (String ch str)
  = found (String pat_head pat_tail) str.
Proof.
  intros Hp Hch. unfold found. cbn [find].
  destruct (String.prefix _ (String ch str)) eqn:Hpre.
  - apply prefix_starts_with in Hpre as [post Hpost].
    rewrite append_String in Hpost. injection Hpost as -> _. congruence.
  - by destruct (find (String pat_head pat_tail) str).
Qed.

Lemma marker_no_space ch str :
  isspace ch = true -> String ch str <> g_deleted_line.
Proof. intros Hch [= -> _]. discriminate Hch. Qed.

Lemma moduleType_after_space ch line :
  isspace ch = true -> line <> g_deleted_line ->
  moduleType (String ch line) = moduleType line.
Proof.
  intros Hch Hl.
  assert (isThirdPartyModule (String ch line) = isThirdPartyModule line) as Ht.
  { unfold isThirdPartyModule. by rewrite !found_after_space. }
  assert (isPlatformModule (String ch line) = isPlatformModule line) as Hp.
  { unfold isPlatformModule. by rewrite found_after_space. }
  unfold moduleType, isStdLibModule. rewrite Ht, Hp.
  cbn [empty all_of_isspace removeSpaces]. rewrite Hch. cbn [andb].
  destruct (String.eqb_spec (String ch line) g_deleted_line) as [Hm|_].
  { by apply (marker_no_space ch line) in Hm. }
  destruct (String.eqb_spec line g_deleted_line) as [?|_]; [done|].
  destruct line as [|d line]; reflexivity.
Qed.

(** X19. White space in front of a line that is not the marker changes
    neither its category nor its key, so the indentation of the imports does
    not count in their order. *)
Theorem indentation_does_not_count (space line other : string) :
  all_of_isspace space = true -> line <> g_deleted_line ->
  moduleType (space +:+ line) = moduleType line /\
  path_key (space +:+ line) = path_key line /\
  (other <> g_deleted_line ->
   cmp (space +:+ line) other = cmp line other /\
   cmp other (space +:+ line) = cmp other line).
Proof.
  intros Hs Hl.
  assert (space +:+ line <> g_deleted_line /\
          moduleType (space +:+ line) = moduleType line) as [Hm Ht].
  { induction space as [|ch space IH]; [done|].
    simpl in Hs. apply andb_true_iff in Hs as [Hch Hs].
    destruct (IH Hs) as [Hm Ht]. rewrite append_String. split.
    - by apply marker_no_space.
    - by rewrite moduleType_after_space. }
  assert (path_key (space +:+ line) = path_key line) as Hk.
  { unfold path_key. rewrite removeSpaces_append.
    apply all_of_isspace_blank in Hs. by rewrite Hs. }
  split; [done|]. split; [done|]. intros Ho. unfold cmp.
  apply String.eqb_neq in Hm, Hl, Ho. rewrite Hm, Hl, Ho, Ht. simpl.
  fold (path_key (space +:+ line)) (path_key line). by rewrite Hk.
Qed.

Lemma indentation_does_not_count_witness :
  cmp ("    " +:+ import_line EmptyString "os") (import_line EmptyString "fmt")
  = false.
Proof.
  destruct (indentation_does_not_count "    " (import_line EmptyString "os")
              (import_line EmptyString "fmt")) as (_ & _ & H);
    [reflexivity | discriminate |].
  destruct H as [-> _]; [discriminate|]. vm_compute. reflexivity.
Defined.

(** The [catch] of [main] at work: a traversal that throws after it
    delivered a file leaves the file rewritten, prints no report and ends
    with -2; so does a first query that throws, with the files as they
    were. *)
Example main_catches :
  let walk := {| walk_entries := ["a.go"]; walk_throws := true |} in
  let outcome :=
    main stable_sort (fun _ => Some true) (fun _ => walk)
      (fun _ => ".go") ["order_includes"; "src"] three_groups in
  exit_code outcome = (-2)%Z /\ std_out outcome = [] /\
  std_err outcome = ["unexpected error occured"] /\
  files outcome = (formatFile stable_sort "a.go" three_groups).2 /\
  files outcome <> three_groups /\
  main stable_sort (fun _ => None) (fun _ => walk)
    (fun _ => ".go") ["order_includes"; "src"] three_groups
  = unexpected_error three_groups.
Proof.
  cbv zeta. split; [vm_compute; reflexivity|]. split; [vm_compute; reflexivity|].
  split; [vm_compute; reflexivity|]. split; [vm_compute; reflexivity|].
  split; [|vm_compute; reflexivity].
  intros H. apply (f_equal (fun m : FileSystem => m !! "a.go")) in H.
  vm_compute in H. discriminate H.
Qed.
